(** * fw-heudiconv: the curation command line (fw_heudiconv/cli/curate.py)

    A shallow embedding of [convert_to_bids], [get_parser] and [main], and
    the properties of the curation flow stated in the specification.

    The program is glue around four collaborators that live outside the
    file: the Flywheel client, the query layer ([get_seq_info]), the
    heudiconv heuristic loader with the heuristic module it returns, and
    the apply layer ([apply_heuristic]).  Their behaviour is not fixed
    here: every one of them is a field of the record [Collaborators], a
    function of an abstract remote/process state [World] that either
    returns a value or raises a Python exception.  The orchestrator is
    written in a state-and-exception monad that threads the world and
    records, in order, every call it makes.

    Logging calls are recorded with their level and format string.  Their
    arguments are evaluated before the call, as Python does; the one
    evaluation that can fail on a value a collaborator may return, the
    subscript [project_obj['label']] on line 44, is modelled.  The
    renderings of sessions and sequence infos (lines 52 and 58) are taken
    to succeed.  The apply layer is taken not to mutate the lists it is
    handed. *)

From Stdlib Require Import Ascii String.
From stdpp Require Import base option list strings gmap.

Set Default Proof Using "Type".

(** ** Python values used by the orchestrator *)

(** A Python exception: its class name and its message. *)
Inductive exn : Type :=
  | Exc (cls : string) (msg : string).

Definition TypeError : string -> exn := Exc "TypeError".

(** What a call does: it returns a value or it raises. *)
Inductive outcome (A : Type) : Type :=
  | Returns (a : A)
  | Raises (e : exn).
Arguments Returns {A} a.
Arguments Raises {A} e.

(** The handle built by [flywheel.Client()]. *)
Record Client : Type := { api_key : string }.

Record Project : Type := {
  project_label_of : string;   (* project_obj['label'] *)
  project_id : string          (* project_obj.id *)
}.

Record Subject : Type := { subject_label : string }.   (* s.subject['label'] *)

Record Session : Type := {
  session_id : string;         (* s.id *)
  session_label : string;      (* s.label *)
  session_subject : Subject    (* s.subject *)
}.

(** One acquisition.  The two floating point attributes (TR, TE) are read
    only by the debug rendering [pretty_string_seqinfo] and are left out. *)
Record SeqInfo : Type := {
  protocol_name : string;
  dim1 : Z; dim2 : Z; dim3 : Z; dim4 : Z;
  image_type : list string;
  series_id : string
}.

(** Destination keys of the heuristic, the matched sequences stored under
    a key, and the cross references of [IntendedFor]. *)
Definition Key : Type := string.
Definition Matched : Type := string.
Definition Ref : Type := string.

(** The dict returned by [infotodict]: its items in insertion order. *)
Definition ToRename : Type := list (Key * list Matched).

Global Instance exn_eq_dec : EqDecision exn.
Proof. solve_decision. Defined.
Global Instance Client_eq_dec : EqDecision Client.
Proof. solve_decision. Defined.
Global Instance Subject_eq_dec : EqDecision Subject.
Proof. solve_decision. Defined.
Global Instance Session_eq_dec : EqDecision Session.
Proof. solve_decision. Defined.

(** ** Small pieces of Python *)

(** Truth value of an optional list argument ([None] and [[]] are false). *)
Definition truthy {A : Type} (o : option (list A)) : bool :=
  match o with
  | Some (_ :: _) => true
  | _ => false
  end.

(** [x in labels] for a list of strings. *)
Definition py_in (x : string) (labels : list string) : bool :=
  bool_decide (x ∈ labels).

(** [sep.join(parts)] *)
Fixpoint join (sep : string) (parts : list string) : string :=
  match parts with
  | [] => ""
  | [p] => p
  | p :: rest => p +:+ sep +:+ join sep rest
  end.

Definition dquote : string := String "034"%char EmptyString.

(** ['label="{}"'.format(project_label)] *)
Definition label_query (project_label : string) : string :=
  "label=" +:+ dquote +:+ project_label +:+ dquote.

(** ** The session filters (lines 47-50) *)

(** [[s for s in sessions if s.subject['label'] in subject_labels]] *)
Definition keep_subjects (subject_labels : list string) (sessions : list Session)
  : list Session :=
  filter (λ s, py_in (subject_label (session_subject s)) subject_labels = true) sessions.

(** [[s for s in sessions if s.label in session_labels]] *)
Definition keep_sessions (session_labels : list string) (sessions : list Session)
  : list Session :=
  filter (λ s, py_in (session_label s) session_labels = true) sessions.

(** [if subject_labels: sessions = ...] *)
Definition filter_by_subject (subject_labels : option (list string))
    (sessions : list Session) : list Session :=
  if truthy subject_labels
  then keep_subjects (default [] subject_labels) sessions
  else sessions.

(** [if session_labels: sessions = ...] *)
Definition filter_by_session (session_labels : option (list string))
    (sessions : list Session) : list Session :=
  if truthy session_labels
  then keep_sessions (default [] session_labels) sessions
  else sessions.

(** Lines 47-50: the subject filter, then the session filter. *)
Definition filter_sessions (subject_labels session_labels : option (list string))
    (sessions : list Session) : list Session :=
  filter_by_session session_labels (filter_by_subject subject_labels sessions).

(** ** [collections.defaultdict(list)] *)

(** [intention_map[key]]: the stored value, or, through [__missing__], a new
    empty list that is also stored under the key. *)
Definition defaultdict_getitem (m : gmap Key (list Ref)) (key : Key)
  : list Ref * gmap Key (list Ref) :=
  match m !! key with
  | Some v => (v, m)
  | None => ([], <[key := []]> m)
  end.

(** [intention_map.update(other)] *)
Definition dict_update (m other : gmap Key (list Ref)) : gmap Key (list Ref) :=
  other ∪ m.

(** ** The argument parser *)

Inductive Nargs : Type := NargsNone | OneOrMore.
Inductive Action : Type := Store | StoreTrue.
Inductive DefaultValue : Type := NoDefault | DefaultNone | DefaultFalse.

Record Argument : Type := {
  arg_name : string;
  arg_help : string;
  arg_nargs : Nargs;
  arg_required : bool;
  arg_action : Action;
  arg_default : DefaultValue
}.

Record ArgumentParser : Type := {
  description : string;
  arguments : list Argument
}.

Definition get_parser : ArgumentParser :=
  {| description := "Use a heudiconv heuristic to curate bids on flywheel";
     arguments :=
       [ {| arg_name := "--project"; arg_help := "The project in flywheel";
            arg_nargs := OneOrMore; arg_required := true;
            arg_action := Store; arg_default := NoDefault |};
         {| arg_name := "--heuristic";
            arg_help := "Path to a heudiconv-style heuristic file";
            arg_nargs := NargsNone; arg_required := true;
            arg_action := Store; arg_default := NoDefault |};
         {| arg_name := "--subject"; arg_help := "The subject label(s)";
            arg_nargs := OneOrMore; arg_required := false;
            arg_action := Store; arg_default := DefaultNone |};
         {| arg_name := "--session"; arg_help := "The session label(s)";
            arg_nargs := OneOrMore; arg_required := false;
            arg_action := Store; arg_default := DefaultNone |};
         {| arg_name := "--verbose";
            arg_help := "Print ongoing messages of progress";
            arg_nargs := NargsNone; arg_required := false;
            arg_action := StoreTrue; arg_default := DefaultFalse |};
         {| arg_name := "--dry_run"; arg_help := "Don't apply changes";
            arg_nargs := NargsNone; arg_required := false;
            arg_action := StoreTrue; arg_default := DefaultFalse |} ] |}.

(** The namespace produced by [parser.parse_args()]. *)
Record Namespace : Type := {
  args_project : list string;
  args_heuristic : string;
  args_subject : option (list string);
  args_session : option (list string);
  args_verbose : bool;
  args_dry_run : bool
}.

(** ** The calls the program makes *)

Inductive LogLevel : Type := DEBUG | INFO.

Inductive Event : Type :=
  | EvLog (level : LogLevel) (message : string)
  | EvSetLevel (level : LogLevel)
  | EvNewClient
  | EvParseArgs (parser : ArgumentParser)
  | EvFindFirst (client : Client) (query : string)
  | EvGetProjectSessions (client : Client) (project : string)
  | EvGetSeqInfo (client : Client) (project_label : string) (sessions : list Session)
  | EvLoadHeuristic (heuristic_path : string)
  | EvInfotodict (seq_infos : list SeqInfo)
  | EvApplyHeuristic (client : Client) (key : Key) (val : list Matched)
      (dry_run : bool) (intentions : list Ref).

Definition is_apply (ev : Event) : bool :=
  match ev with EvApplyHeuristic _ _ _ _ _ => true | _ => false end.

Definition is_infotodict (ev : Event) : bool :=
  match ev with EvInfotodict _ => true | _ => false end.

Definition is_query (ev : Event) : bool :=
  match ev with
  | EvGetProjectSessions _ _ | EvGetSeqInfo _ _ _ => true
  | _ => false
  end.

Definition is_log (ev : Event) : bool :=
  match ev with EvLog _ _ => true | _ => false end.

Definition is_find_first (ev : Event) : bool :=
  match ev with EvFindFirst _ _ => true | _ => false end.

Definition is_set_level (ev : Event) : bool :=
  match ev with EvSetLevel _ => true | _ => false end.

(** The record logged on line 68. *)
Definition announces_changes (ev : Event) : bool :=
  match ev with
  | EvLog INFO message => bool_decide (message = "Applying changes to files...")
  | _ => false
  end.

(** The calls to the apply layer among the events, in order. *)
Definition apply_calls (evs : list Event) : list Event :=
  filter (λ ev, is_apply ev = true) evs.

(** The same call with its dry-run argument blanked. *)
Definition erase_dry_run (ev : Event) : Event :=
  match ev with
  | EvApplyHeuristic c k v _ i => EvApplyHeuristic c k v false i
  | _ => ev
  end.

Section Orchestrator.
Context {World : Type}.

(** The module returned by [utils.load_heuristic]: its classification
    entry point and, when it has one, its [IntendedFor] attribute. *)
Record Heuristic : Type := {
  infotodict : list SeqInfo -> World -> outcome ToRename * World;
  IntendedFor : option (gmap Key (list Ref))
}.

(** Everything [curate.py] imports and calls. *)
Record Collaborators : Type := {
  flywheel_Client : World -> outcome Client * World;
  parse_args : ArgumentParser -> World -> outcome Namespace * World;
  find_first : Client -> string -> World -> outcome (option Project) * World;
  get_project_sessions : Client -> string -> World -> outcome (list Session) * World;
  get_seq_info : Client -> string -> list Session -> World
                 -> outcome (list SeqInfo) * World;
  load_heuristic : string -> World -> outcome Heuristic * World;
  apply_heuristic : Client -> Key -> list Matched -> bool -> list Ref -> World
                    -> outcome unit * World
}.

Record State : Type := {
  world : World;
  trace : list Event
}.

(** State and exception monad of the run. *)
Definition M (A : Type) : Type := State -> outcome A * State.

Definition ret {A : Type} (a : A) : M A := λ s, (Returns a, s).

Definition raise {A : Type} (e : exn) : M A := λ s, (Raises e, s).

Definition bind {A B : Type} (m : M A) (k : A -> M B) : M B :=
  λ s, match m s with
       | (Returns a, s') => k a s'
       | (Raises e, s') => (Raises e, s')
       end.

(** A call to a collaborator: recorded, then run on the world. *)
Definition call {A : Type} (ev : Event) (f : World -> outcome A * World) : M A :=
  λ s, let (r, w) := f (world s) in
       (r, {| world := w; trace := trace s ++ [ev] |}).

(** [logger.info] and [logger.debug]: recorded with their format string. *)
Definition log (level : LogLevel) (message : string) : M unit :=
  λ s, (Returns tt, {| world := world s; trace := trace s ++ [EvLog level message] |}).

Definition set_level (level : LogLevel) : M unit :=
  λ s, (Returns tt, {| world := world s; trace := trace s ++ [EvSetLevel level] |}).

Global Instance M_ret : MRet M := @ret.
Global Instance M_bind : MBind M := λ A B k m, bind m k.

Context (ext : Collaborators).

Definition newline : string := String "010"%char EmptyString.
Definition tab : string := String "009"%char EmptyString.

(** Lines 42-65 of [convert_to_bids]: resolve the project, fetch and
    filter its sessions, fetch the sequence infos, load the heuristic and
    classify.  The arguments of a logging call are evaluated before the
    call, whatever the level: [project_obj['label']] on line 44 raises
    [TypeError] when [find_first] returned [None]. *)
Definition classify (client : Client) (project_label heuristic_path : string)
    (subject_labels session_labels : option (list string))
  : M (Heuristic * ToRename) :=
  log INFO "Querying Flywheel server...";;
  project_obj ← call (EvFindFirst client (label_query project_label))
                     (find_first ext client (label_query project_label));
  project_obj ← match project_obj with
                | Some p => ret p
                | None => raise (TypeError "'NoneType' object is not subscriptable")
                end;
  log DEBUG "Found project: %s (%s)";;
  sessions ← call (EvGetProjectSessions client (project_id project_obj))
                  (get_project_sessions ext client (project_id project_obj));
  let sessions := filter_sessions subject_labels session_labels sessions in
  log DEBUG ("Found sessions:" +:+ newline +:+ tab +:+ "%s");;
  seq_infos ← call (EvGetSeqInfo client project_label sessions)
                   (get_seq_info ext client project_label sessions);
  log DEBUG ("Found SeqInfos:" +:+ newline +:+ "%s");;
  log INFO "Loading heuristic file...";;
  heuristic ← call (EvLoadHeuristic heuristic_path)
                   (load_heuristic ext heuristic_path);
  log INFO "Applying heuristic to query results...";;
  to_rename ← call (EvInfotodict seq_infos) (infotodict heuristic seq_infos);
  ret (heuristic, to_rename).

(** Lines 76-77: [for key, val in to_rename.items(): apply_heuristic(...)],
    the defaultdict being threaded through the iterations. *)
Fixpoint apply_each (client : Client) (dry_run : bool) (items : ToRename)
    (intention_map : gmap Key (list Ref)) : M unit :=
  match items with
  | [] => ret tt
  | (key, val) :: rest =>
      let '(intentions, intention_map) := defaultdict_getitem intention_map key in
      call (EvApplyHeuristic client key val dry_run intentions)
           (apply_heuristic ext client key val dry_run intentions);;
      apply_each client dry_run rest intention_map
  end.

(** Lines 70-74: [defaultdict(list)], updated with [IntendedFor] when the
    module has that attribute. *)
Definition build_intention_map (heuristic : Heuristic) : M (gmap Key (list Ref)) :=
  let intention_map : gmap Key (list Ref) := ∅ in
  match IntendedFor heuristic with
  | Some intended_for =>
      log INFO "Updating IntendedFor fields based on heuristic file";;
      let intention_map := dict_update intention_map intended_for in
      log DEBUG "Intention map: %s";;
      ret intention_map
  | None => ret intention_map
  end.

(** Lines 67-77 of [convert_to_bids]. *)
Definition curate (client : Client) (heuristic : Heuristic) (to_rename : ToRename)
    (dry_run : bool) : M unit :=
  (if negb dry_run then log INFO "Applying changes to files..." else ret tt);;
  intention_map ← build_intention_map heuristic;
  apply_each client dry_run to_rename intention_map.

Definition convert_to_bids (client : Client) (project_label heuristic_path : string)
    (subject_labels session_labels : option (list string)) (dry_run : bool)
  : M unit :=
  '(heuristic, to_rename) ← classify client project_label heuristic_path
                                     subject_labels session_labels;
  curate client heuristic to_rename dry_run.

(** [main()].  A [flywheel.Client] object is always true, so the
    assertion on it passes whenever the constructor returned. *)
Definition main : M unit :=
  fw ← call EvNewClient (flywheel_Client ext);
  let parser := get_parser in
  args ← call (EvParseArgs parser) (parse_args ext parser);
  (if args_verbose args then set_level DEBUG else ret tt);;
  let project_label := join " " (args_project args) in
  convert_to_bids fw project_label (args_heuristic args)
                  (args_subject args) (args_session args) (args_dry_run args).

(** The events a computation adds to the trace. *)
Definition new_events (s s' : State) : list Event :=
  drop (length (trace s)) (trace s').

(** *** Vocabulary of the statements *)

(** Lookup with default: the heuristic's [IntendedFor] entry for a key,
    the empty list when the entry or the whole attribute is missing. *)
Definition intentions_for (heuristic : Heuristic) (key : Key) : list Ref :=
  match IntendedFor heuristic with
  | Some intended_for => default [] (intended_for !! key)
  | None => []
  end.

(** The apply call owed to one item of the classification. *)
Definition planned_call (client : Client) (dry_run : bool) (heuristic : Heuristic)
    (item : Key * list Matched) : Event :=
  EvApplyHeuristic client item.1 item.2 dry_run (intentions_for heuristic item.1).

(** What it is for the apply layer to be invoked on the items of a
    classification, one after the other: the call for an item is
    [apply_heuristic] itself, given the client, the key, its matches, the
    flag and [intent key], and run on the world its predecessor left; the
    first call that raises ends the series with its exception, in the world
    it left. *)
Inductive apply_in_order (client : Client) (dry_run : bool) (intent : Key -> list Ref)
  : World -> ToRename -> outcome unit -> World -> Prop :=
  | apply_none w :
      apply_in_order client dry_run intent w [] (Returns tt) w
  | apply_next w key val w' rest r w'' :
      apply_heuristic ext client key val dry_run (intent key) w = (Returns tt, w') ->
      apply_in_order client dry_run intent w' rest r w'' ->
      apply_in_order client dry_run intent w ((key, val) :: rest) r w''
  | apply_raises w key val rest e w' :
      apply_heuristic ext client key val dry_run (intent key) w = (Raises e, w') ->
      apply_in_order client dry_run intent w ((key, val) :: rest) (Raises e) w'.

(** The defaultdict after lines 70-74. *)
Definition initial_intention_map (heuristic : Heuristic) : gmap Key (list Ref) :=
  match IntendedFor heuristic with
  | Some intended_for => dict_update ∅ intended_for
  | None => ∅
  end.

(** A state with more events recorded. *)
Definition record (s : State) (evs : list Event) : State :=
  {| world := world s; trace := trace s ++ evs |}.

(** The log records of lines 67-74. *)
Definition curate_logs (heuristic : Heuristic) (dry_run : bool) : list Event :=
  (if dry_run then [] else [EvLog INFO "Applying changes to files..."])
  ++ match IntendedFor heuristic with
     | Some _ => [EvLog INFO "Updating IntendedFor fields based on heuristic file";
                  EvLog DEBUG "Intention map: %s"]
     | None => []
     end.

(** The log records and calls of lines 42-65 when nothing raises. *)
Definition classify_events (client : Client) (project_label heuristic_path : string)
    (project_obj : Project) (sessions : list Session) (seq_infos : list SeqInfo)
  : list Event :=
  [ EvLog INFO "Querying Flywheel server...";
    EvFindFirst client (label_query project_label);
    EvLog DEBUG "Found project: %s (%s)";
    EvGetProjectSessions client (project_id project_obj);
    EvLog DEBUG ("Found sessions:" +:+ newline +:+ tab +:+ "%s");
    EvGetSeqInfo client project_label sessions;
    EvLog DEBUG ("Found SeqInfos:" +:+ newline +:+ "%s");
    EvLog INFO "Loading heuristic file...";
    EvLoadHeuristic heuristic_path;
    EvLog INFO "Applying heuristic to query results...";
    EvInfotodict seq_infos ].

End Orchestrator.

Arguments Heuristic : clear implicits.
Arguments Collaborators : clear implicits.
Arguments State : clear implicits.
Arguments M : clear implicits.
Arguments new_events {World} s s'.

(** ** A small remote, for the examples

    Project "StudyA" holds the two sessions sub-01/ses-1 and sub-02/ses-1.
    The remote remembers the keys written to it; a write to a locked key is
    rejected, and a dry run writes nothing. *)
Module Demo.

Record Remote : Type := {
  locked : list Key;
  written : list Key
}.

Definition fw : Client := {| api_key := "demo" |}.

Definition study_a : Project :=
  {| project_label_of := "StudyA"; project_id := "p1" |}.

Definition ses_sub01 : Session :=
  {| session_id := "s1"; session_label := "ses-1";
     session_subject := {| subject_label := "sub-01" |} |}.

Definition ses_sub02 : Session :=
  {| session_id := "s2"; session_label := "ses-1";
     session_subject := {| subject_label := "sub-02" |} |}.

Definition seq_of (s : Session) : SeqInfo :=
  {| protocol_name := "T1w"; dim1 := 256; dim2 := 256; dim3 := 176; dim4 := 1;
     image_type := ["ORIGINAL"; "PRIMARY"]; series_id := session_id s |}.

Definition classification : ToRename :=
  [("key1", ["seqA"]); ("key2", ["seqB"; "seqC"])].

(** A heuristic module without the [IntendedFor] attribute. *)
Definition plain : Heuristic Remote :=
  {| infotodict := λ _ w, (Returns classification, w);
     IntendedFor := None |}.

(** [IntendedFor = {key1: [ref1]}] *)
Definition with_intentions : Heuristic Remote :=
  {| infotodict := λ _ w, (Returns classification, w);
     IntendedFor := Some {[ "key1" := ["ref1"] ]} |}.

(** [IntendedFor = {key1: [ref1], key9: [ref9]}]: key9 is never classified. *)
Definition with_stray_intention : Heuristic Remote :=
  {| infotodict := λ _ w, (Returns classification, w);
     IntendedFor := Some (<[ "key9" := ["ref9"] ]> {[ "key1" := ["ref1"] ]}) |}.

Definition services : Collaborators Remote :=
  {| flywheel_Client := λ w, (Returns fw, w);
     parse_args := λ _ w,
       (Returns {| args_project := ["Study"; "A"; "pilot"];
                   args_heuristic := "plain.py";
                   args_subject := None; args_session := None;
                   args_verbose := false; args_dry_run := true |}, w);
     find_first := λ _ query w,
       (Returns (if decide (query = label_query "StudyA")
                 then Some study_a else None), w);
     get_project_sessions := λ _ _ w, (Returns [ses_sub01; ses_sub02], w);
     get_seq_info := λ _ _ sessions w, (Returns (seq_of <$> sessions), w);
     load_heuristic := λ path w,
       (if decide (path = "plain.py") then Returns plain
        else if decide (path = "intended.py") then Returns with_intentions
        else if decide (path = "stray.py") then Returns with_stray_intention
        else Raises (Exc "ImportError" path), w);
     apply_heuristic := λ _ key _ dry_run _ w,
       if dry_run then (Returns tt, w)
       else if decide (key ∈ locked w)
            then (Raises (Exc "ApiException" "write rejected"), w)
            else (Returns tt, {| locked := locked w; written := written w ++ [key] |})
  |}.

Definition fresh (locked_keys : list Key) : State Remote :=
  {| world := {| locked := locked_keys; written := [] |}; trace := [] |}.

End Demo.

(** ** The same remote with outages, for the examples of failures *)
Module Faulty.

Inductive Stage : Type :=
  | AtClient | AtArguments | AtSessions | AtSeqInfo | Nowhere.

Global Instance Stage_eq_dec : EqDecision Stage.
Proof. solve_decision. Defined.

Definition outage : exn := Exc "ApiException" "service unavailable".

(** A heuristic whose classification function raises. *)
Definition broken : Heuristic Demo.Remote :=
  {| infotodict := λ _ w, (Raises (Exc "KeyError" "protocol_name"), w);
     IntendedFor := None |}.

(** A heuristic that matches no sequence. *)
Definition matches_nothing : Heuristic Demo.Remote :=
  {| infotodict := λ _ w, (Returns [], w);
     IntendedFor := Some {[ "key1" := ["ref1"] ]} |}.

Definition services (fail_at : Stage) (verbose : bool) : Collaborators Demo.Remote :=
  {| flywheel_Client := λ w,
       if decide (fail_at = AtClient) then (Raises outage, w) else (Returns Demo.fw, w);
     parse_args := λ _ w,
       if decide (fail_at = AtArguments) then (Raises (Exc "SystemExit" "2"), w)
       else (Returns {| args_project := ["StudyA"]; args_heuristic := "plain.py";
                        args_subject := None; args_session := None;
                        args_verbose := verbose; args_dry_run := false |}, w);
     find_first := find_first Demo.services;
     get_project_sessions := λ client project w,
       if decide (fail_at = AtSessions) then (Raises outage, w)
       else get_project_sessions Demo.services client project w;
     get_seq_info := λ client label sessions w,
       if decide (fail_at = AtSeqInfo) then (Raises outage, w)
       else get_seq_info Demo.services client label sessions w;
     load_heuristic := λ path w,
       if decide (path = "broken.py") then (Returns broken, w)
       else if decide (path = "empty.py") then (Returns matches_nothing, w)
       else load_heuristic Demo.services path w;
     apply_heuristic := apply_heuristic Demo.services |}.

End Faulty.

(** * Properties *)

(** ** The session filters *)

Lemma py_in_true (x : string) (labels : list string) :
  py_in x labels = true ↔ x ∈ labels.
Proof. unfold py_in. apply bool_decide_eq_true. Qed.

Lemma keep_subjects_elem (F : list string) (S : list Session) (s : Session) :
  s ∈ keep_subjects F S ↔ s ∈ S ∧ subject_label (session_subject s) ∈ F.
Proof.
  unfold keep_subjects. rewrite list_elem_of_filter, py_in_true. tauto.
Qed.

Lemma keep_sessions_elem (F : list string) (S : list Session) (s : Session) :
  s ∈ keep_sessions F S ↔ s ∈ S ∧ session_label s ∈ F.
Proof.
  unfold keep_sessions. rewrite list_elem_of_filter, py_in_true. tauto.
Qed.

Lemma list_intersection_filter {A : Type} `{!EqDecision A} (l k : list A) :
  list_intersection l k = filter (λ x, x ∈ k) l.
Proof.
  induction l as [|x l IH]; [done|].
  simpl. rewrite filter_cons. destruct (decide_rel elem_of x k), (decide (x ∈ k));
    try contradiction; by rewrite IH.
Qed.

Lemma count_occ_filter_le {A : Type} `{!EqDecision A} (P : A → Prop)
    `{!∀ x, Decision (P x)} (l : list A) (a : A) :
  count_occ (decide_rel (=)) (filter P l) a ≤ count_occ (decide_rel (=)) l a.
Proof.
  induction l as [|x l IH]; [done|].
  rewrite filter_cons. destruct (decide (P x)); simpl;
    destruct (decide_rel eq x a); lia.
Qed.

Lemma filter_by_subject_sublist (F : option (list string)) (S : list Session) :
  filter_by_subject F S `sublist_of` S.
Proof.
  unfold filter_by_subject, keep_subjects.
  destruct (truthy F); [apply sublist_filter with (P := λ s, _ = true); apply _ | done].
Qed.

Lemma filter_by_session_sublist (F : option (list string)) (S : list Session) :
  filter_by_session F S `sublist_of` S.
Proof.
  unfold filter_by_session, keep_sessions.
  destruct (truthy F); [apply sublist_filter with (P := λ s, _ = true); apply _ | done].
Qed.

Lemma filter_sessions_sublist (Fsub Fses : option (list string)) (S : list Session) :
  filter_sessions Fsub Fses S `sublist_of` S.
Proof.
  unfold filter_sessions. etrans; [apply filter_by_session_sublist|].
  apply filter_by_subject_sublist.
Qed.

Lemma filter_by_subject_elem (F : option (list string)) (S : list Session) (s : Session) :
  s ∈ filter_by_subject F S ↔
  s ∈ S ∧ (truthy F = true → subject_label (session_subject s) ∈ default [] F).
Proof.
  unfold filter_by_subject. destruct (truthy F) eqn:HF.
  - rewrite keep_subjects_elem. tauto.
  - split; [intros ?; split; [done | discriminate] | tauto].
Qed.

Lemma filter_by_session_elem (F : option (list string)) (S : list Session) (s : Session) :
  s ∈ filter_by_session F S ↔
  s ∈ S ∧ (truthy F = true → session_label s ∈ default [] F).
Proof.
  unfold filter_by_session. destruct (truthy F) eqn:HF.
  - rewrite keep_sessions_elem. tauto.
  - split; [intros ?; split; [done | discriminate] | tauto].
Qed.

Lemma filter_ext_elem {A : Type} (P Q : A → Prop)
    `{!∀ x, Decision (P x), !∀ x, Decision (Q x)} (l : list A) :
  (∀ x, x ∈ l → (P x ↔ Q x)) → filter P l = filter Q l.
Proof.
  intros Hext. induction l as [|x l IH]; [done|].
  rewrite !filter_cons. rewrite IH by (intros y Hy; apply Hext; by right).
  pose proof (Hext x (list_elem_of_here _ _)) as Hx.
  destruct (decide (P x)), (decide (Q x)); tauto || done.
Qed.

Lemma filter_all {A : Type} (P : A → Prop) `{!∀ x, Decision (P x)} (l : list A) :
  (∀ x, x ∈ l → P x) → filter P l = l.
Proof.
  intros Hall. induction l as [|x l IH]; [done|].
  rewrite filter_cons_True by (apply Hall; by left).
  f_equal. apply IH. intros y Hy. apply Hall. by right.
Qed.

(** The two filters commute: each is a [filter] of the list it is given. *)
Lemma filters_commute (Fsub Fses : option (list string)) (S : list Session) :
  filter_by_session Fses (filter_by_subject Fsub S)
  = filter_by_subject Fsub (filter_by_session Fses S).
Proof.
  unfold filter_by_session, filter_by_subject, keep_sessions, keep_subjects.
  destruct (truthy Fses), (truthy Fsub); try done.
  rewrite !list_filter_filter. apply list_filter_iff. tauto.
Qed.

(** C3: the subject filter keeps exactly the sessions whose subject label is
    one of the labels supplied, by exact string membership, in the order and
    number in which the query returned them; without labels ([None]) or with
    an empty list of labels the sessions are left as they are. *)
Theorem subject_filter_exact (S : list Session) :
  (∀ F : list string, F ≠ [] →
     filter_by_subject (Some F) S
       = filter (λ s, subject_label (session_subject s) ∈ F) S
     ∧ ∀ s, s ∈ filter_by_subject (Some F) S
            ↔ s ∈ S ∧ subject_label (session_subject s) ∈ F)
  ∧ filter_by_subject None S = S
  ∧ filter_by_subject (Some []) S = S.
Proof.
  split; [|done].
  intros F HF. destruct F as [|l F]; [done|]. split.
  - unfold filter_by_subject, keep_subjects. simpl.
    apply list_filter_iff. intros s. apply py_in_true.
  - intros s. rewrite filter_by_subject_elem. simpl. tauto.
Qed.

Lemma subject_filter_exact_witness :
  filter_by_subject (Some ["sub-01"]) [Demo.ses_sub01; Demo.ses_sub02]
  = [Demo.ses_sub01].
Proof.
  destruct (subject_filter_exact [Demo.ses_sub01; Demo.ses_sub02]) as [H _].
  destruct (H ["sub-01"]) as [-> _]; [discriminate|]. reflexivity.
Defined.

(** C4: with both filters, the sessions kept are the intersection of what
    each filter keeps on its own, and the order in which the two filters
    are applied does not matter. *)
Theorem filters_compose_by_intersection
    (S : list Session) (Fsub Fses : option (list string)) :
  filter_sessions Fsub Fses S
    = list_intersection (filter_by_subject Fsub S) (filter_by_session Fses S)
  ∧ (∀ s, s ∈ filter_sessions Fsub Fses S
          ↔ s ∈ filter_by_subject Fsub S ∧ s ∈ filter_by_session Fses S)
  ∧ filter_by_session Fses (filter_by_subject Fsub S)
    = filter_by_subject Fsub (filter_by_session Fses S).
Proof.
  split_and!.
  - rewrite list_intersection_filter. unfold filter_sessions.
    assert (∀ x, x ∈ filter_by_subject Fsub S → x ∈ S) as Hin.
    { intros x Hx. by apply filter_by_subject_elem in Hx as [? _]. }
    unfold filter_by_session at 1. destruct (truthy Fses) eqn:HF.
    + unfold keep_sessions. apply filter_ext_elem. intros x Hx.
      rewrite filter_by_session_elem, py_in_true. specialize (Hin x Hx). tauto.
    + symmetry. apply filter_all. intros x Hx.
      apply filter_by_session_elem. split; [by apply Hin | by rewrite HF].
  - intros s. unfold filter_sessions.
    rewrite filter_by_session_elem, (filter_by_session_elem Fses S).
    rewrite filter_by_subject_elem. tauto.
  - apply filters_commute.
Qed.

(** ** Runs of the orchestrator *)

Section Runs.
Context {World : Type} (ext : Collaborators World).
Implicit Types (s : State World) (m : gmap Key (list Ref)).

Lemma new_events_app s s' evs :
  trace s' = trace s ++ evs → new_events s s' = evs.
Proof. unfold new_events. intros ->. apply drop_app_length. Qed.

(** The lookup of a defaultdict never fails, and the entry it stores for
    a missing key does not change what any later lookup returns. *)
Lemma defaultdict_getitem_value m key :
  (defaultdict_getitem m key).1 = default [] (m !! key).
Proof. unfold defaultdict_getitem. by destruct (m !! key). Qed.

Lemma defaultdict_getitem_stable m key key' :
  default [] ((defaultdict_getitem m key).2 !! key') = default [] (m !! key').
Proof.
  unfold defaultdict_getitem. destruct (m !! key) eqn:Hk; [done|]. simpl.
  destruct (decide (key = key')) as [->|Hne].
  - by rewrite lookup_insert_eq, Hk.
  - by rewrite lookup_insert_ne.
Qed.

Lemma apply_each_equiv client dry_run items m1 m2 s :
  (∀ k, default [] (m1 !! k) = default [] (m2 !! k)) →
  apply_each ext client dry_run items m1 s = apply_each ext client dry_run items m2 s.
Proof.
  revert m1 m2 s. induction items as [|[key val] rest IH]; intros m1 m2 s Heq; [done|].
  simpl.
  destruct (defaultdict_getitem m1 key) as [i1 m1'] eqn:H1.
  destruct (defaultdict_getitem m2 key) as [i2 m2'] eqn:H2.
  assert (i1 = i2) as ->.
  { change i1 with (i1, m1').1. change i2 with (i2, m2').1.
    rewrite <- H1, <- H2, !defaultdict_getitem_value. apply Heq. }
  unfold mbind, M_bind, bind.
  destruct (call _ _ s) as [[[]|e] s1]; [|done].
  apply IH. intros k.
  change m1' with (i2, m1').2. change m2' with (i2, m2').2.
  rewrite <- H1 at 1. rewrite <- H2. rewrite !defaultdict_getitem_stable. apply Heq.
Qed.

Lemma apply_each_app client dry_run l1 l2 m s :
  apply_each ext client dry_run (l1 ++ l2) m s
  = match apply_each ext client dry_run l1 m s with
    | (Returns _, s1) => apply_each ext client dry_run l2 m s1
    | (Raises e, s1) => (Raises e, s1)
    end.
Proof.
  revert m s. induction l1 as [|[key val] rest IH]; intros m s; [done|].
  simpl. destruct (defaultdict_getitem m key) as [i m'] eqn:Hget.
  unfold mbind, M_bind, bind.
  destruct (call _ _ s) as [[[]|e] s1]; [|done].
  rewrite IH.
  assert (∀ k, default [] (m' !! k) = default [] (m !! k)) as Hm.
  { intros k. change m' with (i, m').2. rewrite <- Hget.
    apply defaultdict_getitem_stable. }
  destruct (apply_each ext client dry_run rest m' s1) as [[[]|e] s2]; [|done].
  by apply apply_each_equiv.
Qed.

Lemma apply_each_cons client dry_run key val rest m s :
  apply_each ext client dry_run ((key, val) :: rest) m s
  = match apply_heuristic ext client key val dry_run (default [] (m !! key)) (world s) with
    | (Returns _, w) =>
        apply_each ext client dry_run rest m
          {| world := w;
             trace := trace s ++ [EvApplyHeuristic client key val dry_run
                                    (default [] (m !! key))] |}
    | (Raises e, w) =>
        (Raises e,
         {| world := w;
            trace := trace s ++ [EvApplyHeuristic client key val dry_run
                                   (default [] (m !! key))] |})
    end.
Proof.
  change ((key, val) :: rest) with ([(key, val)] ++ rest). rewrite apply_each_app.
  simpl. destruct (defaultdict_getitem m key) as [i m'] eqn:Hget.
  assert (i = default [] (m !! key)) as ->.
  { change i with (i, m').1. rewrite <- Hget. apply defaultdict_getitem_value. }
  unfold mbind, M_bind, bind, call, ret.
  by destruct (apply_heuristic _ _ _ _ _ _ _) as [[[]|e] w].
Qed.

(** The loop issues the calls of the items in order and stops at the first
    one that raises. *)
Lemma apply_each_run client dry_run items m s r s' :
  apply_each ext client dry_run items m s = (r, s') →
  ∃ n, n ≤ length items
       ∧ trace s' = trace s
           ++ ((λ it, EvApplyHeuristic client it.1 it.2 dry_run (default [] (m !! it.1)))
                 <$> take n items)
       ∧ (r = Returns tt → n = length items).
Proof.
  revert s. induction items as [|[key val] rest IH]; intros s Hrun.
  - inversion Hrun; subst. exists 0. by rewrite app_nil_r.
  - rewrite apply_each_cons in Hrun.
    destruct (apply_heuristic _ _ _ _ _ _ _) as [[[]|e] w].
    + apply IH in Hrun as (n & Hn & Htr & Hok). exists (S n). simpl in *.
      split; [lia|]. split; [|intros ?; f_equal; auto].
      by rewrite Htr, <- app_assoc.
    + inversion Hrun; subst. exists 1. simpl. split; [lia|].
      split; [done | discriminate].
Qed.

Lemma initial_intention_map_lookup (h : Heuristic World) key :
  default [] (initial_intention_map h !! key) = intentions_for h key.
Proof.
  unfold initial_intention_map, intentions_for, dict_update.
  destruct (IntendedFor h) as [intended_for|]; [|done].
  by rewrite (right_id_L ∅ (∪)).
Qed.

Lemma curate_unfold client (h : Heuristic World) to_rename dry_run s :
  curate ext client h to_rename dry_run s
  = apply_each ext client dry_run to_rename (initial_intention_map h)
      (record s (curate_logs h dry_run)).
Proof.
  unfold curate, build_intention_map, initial_intention_map, curate_logs, record.
  unfold mbind, M_bind, bind, log, ret. destruct s as [w tr].
  destruct dry_run, (IntendedFor h); simpl;
    rewrite <- ?app_assoc, ?app_nil_r; reflexivity.
Qed.

Ltac unfold_run :=
  unfold mbind, M_bind, bind, call, log, set_level, ret, raise; simpl.

(** What a successful run of lines 42-65 went through. *)
Lemma classify_returns client label path sub ses s (h : Heuristic World) tr s1 :
  classify ext client label path sub ses s = (Returns (h, tr), s1) →
  ∃ p S seqs w1 w2 w3 w4,
    find_first ext client (label_query label) (world s) = (Returns (Some p), w1)
    ∧ get_project_sessions ext client (project_id p) w1 = (Returns S, w2)
    ∧ get_seq_info ext client label (filter_sessions sub ses S) w2 = (Returns seqs, w3)
    ∧ load_heuristic ext path w3 = (Returns h, w4)
    ∧ infotodict h seqs w4 = (Returns tr, world s1)
    ∧ trace s1 = trace s
        ++ classify_events client label path p (filter_sessions sub ses S) seqs.
Proof.
  unfold classify. unfold_run. intros Hrun.
  destruct (find_first _ _ _ _) as [[[p|]|e1] w1] eqn:H1; try discriminate.
  destruct (get_project_sessions _ _ _ _) as [[S|e2] w2] eqn:H2; try discriminate.
  destruct (get_seq_info _ _ _ _ _) as [[seqs|e3] w3] eqn:H3; try discriminate.
  destruct (load_heuristic _ _ _) as [[h'|e4] w4] eqn:H4; try discriminate.
  destruct (infotodict _ _ _) as [[tr'|e5] w5] eqn:H5; try discriminate.
  inversion Hrun; subst. exists p, S, seqs, w1, w2, w3, w4.
  simpl. rewrite <- !app_assoc. done.
Qed.

(** Lines 42-65 make no call to the apply layer and at most one call to
    the classification entry point, exactly one when they complete. *)
Lemma classify_events_shape client label path sub ses s r s1 :
  classify ext client label path sub ses s = (r, s1) →
  ∃ evs, trace s1 = trace s ++ evs
         ∧ apply_calls evs = []
         ∧ match r with
           | Returns _ => ∃ seqs, filter (λ ev, is_infotodict ev = true) evs
                                  = [EvInfotodict seqs]
           | Raises _ => length (filter (λ ev, is_infotodict ev = true) evs) ≤ 1
           end.
Proof.
  unfold classify. unfold_run. intros Hrun.
  destruct (find_first _ _ _ _) as [[[p|]|e1] w1] eqn:H1;
    [|inversion Hrun; subst; simpl; rewrite <- ?app_assoc; eexists; split; [done|];
      split; [done|]; simpl; lia..].
  destruct (get_project_sessions _ _ _ _) as [[S|e2] w2] eqn:H2;
    [|inversion Hrun; subst; simpl; rewrite <- ?app_assoc; eexists; split; [done|];
      split; [done|]; simpl; lia].
  destruct (get_seq_info _ _ _ _ _) as [[seqs|e3] w3] eqn:H3;
    [|inversion Hrun; subst; simpl; rewrite <- ?app_assoc; eexists; split; [done|];
      split; [done|]; simpl; lia].
  destruct (load_heuristic _ _ _) as [[h'|e4] w4] eqn:H4;
    [|inversion Hrun; subst; simpl; rewrite <- ?app_assoc; eexists; split; [done|];
      split; [done|]; simpl; lia].
  destruct (infotodict _ _ _) as [[tr'|e5] w5] eqn:H5;
    inversion Hrun; subst; simpl; rewrite <- ?app_assoc; eexists; (split; [done|]);
      (split; [done|]); simpl; eauto.
Qed.

(** Lines 42-65 never log the record of line 68. *)
Lemma classify_no_announcement client label path sub ses s r s1 evs ev :
  classify ext client label path sub ses s = (r, s1) →
  trace s1 = trace s ++ evs →
  ev ∈ evs → announces_changes ev = false.
Proof.
  unfold classify. unfold_run. intros Hrun Htr Hin.
  assert (∀ l, trace s1 = trace s ++ l →
               Forall (λ ev, announces_changes ev = false) l →
               announces_changes ev = false) as Hall.
  { intros l Hl Hf. rewrite Hl in Htr. apply app_inv_head in Htr as <-.
    by apply (proj1 (Forall_forall _ _) Hf). }
  destruct (find_first _ _ _ _) as [[[p|]|e1] w1];
    [|inversion Hrun; subst; simpl in *; rewrite <- ?app_assoc in Hall;
      eapply Hall; [done | by repeat constructor]..].
  destruct (get_project_sessions _ _ _ _) as [[S|e2] w2];
    [|inversion Hrun; subst; simpl in *; rewrite <- ?app_assoc in Hall;
      eapply Hall; [done | by repeat constructor]].
  destruct (get_seq_info _ _ _ _ _) as [[seqs|e3] w3];
    [|inversion Hrun; subst; simpl in *; rewrite <- ?app_assoc in Hall;
      eapply Hall; [done | by repeat constructor]].
  destruct (load_heuristic _ _ _) as [[h'|e4] w4];
    [|inversion Hrun; subst; simpl in *; rewrite <- ?app_assoc in Hall;
      eapply Hall; [done | by repeat constructor]].
  destruct (infotodict _ _ _) as [[tr'|e5] w5];
    inversion Hrun; subst; simpl in *; rewrite <- ?app_assoc in Hall;
      (eapply Hall; [done | by repeat constructor]).
Qed.

Lemma apply_calls_app evs1 evs2 :
  apply_calls (evs1 ++ evs2) = apply_calls evs1 ++ apply_calls evs2.
Proof. unfold apply_calls. apply filter_app. Qed.

Lemma apply_calls_planned client dry_run (h : Heuristic World) items :
  apply_calls (planned_call client dry_run h <$> items)
  = planned_call client dry_run h <$> items.
Proof.
  unfold apply_calls. apply filter_all. intros ev Hev.
  apply list_elem_of_fmap in Hev as (it & -> & _). done.
Qed.

Lemma apply_calls_curate_logs (h : Heuristic World) dry_run :
  apply_calls (curate_logs h dry_run) = [].
Proof. unfold curate_logs. by destruct dry_run, (IntendedFor h). Qed.

Lemma infotodict_calls_curate client dry_run (h : Heuristic World) items :
  filter (λ ev, is_infotodict ev = true)
         (curate_logs h dry_run ++ (planned_call client dry_run h <$> items)) = [].
Proof.
  rewrite filter_app. assert (filter (λ ev, is_infotodict ev = true)
                                (planned_call client dry_run h <$> items) = []) as ->.
  { induction items as [|it items IH]; [done|]. simpl.
    rewrite filter_cons_False; [done | by simpl]. }
  unfold curate_logs. by destruct dry_run, (IntendedFor h).
Qed.

(** The shape of every run of [curate]: the log records, then the apply
    calls of the first [n] items, all of them when the run returns. *)
Lemma curate_run client (h : Heuristic World) to_rename dry_run s r s' :
  curate ext client h to_rename dry_run s = (r, s') →
  ∃ n, n ≤ length to_rename
       ∧ trace s' = trace s ++ curate_logs h dry_run
                      ++ (planned_call client dry_run h <$> take n to_rename)
       ∧ (r = Returns tt → n = length to_rename).
Proof.
  rewrite curate_unfold. intros Hrun.
  apply apply_each_run in Hrun as (n & Hn & Htr & Hok).
  exists n. split; [done|]. split; [|done].
  rewrite Htr. simpl. rewrite <- app_assoc. do 2 f_equal.
  apply list_fmap_ext. intros _ it _. unfold planned_call.
  by rewrite initial_intention_map_lookup.
Qed.

(** The shape of every run of [convert_to_bids]. *)
Lemma convert_to_bids_run client label path sub ses dry_run s r s' :
  convert_to_bids ext client label path sub ses dry_run s = (r, s') →
  (∃ e, classify ext client label path sub ses s = (Raises e, s') ∧ r = Raises e)
  ∨ (∃ h tr s1 n,
       classify ext client label path sub ses s = (Returns (h, tr), s1)
       ∧ n ≤ length tr
       ∧ trace s' = trace s1 ++ curate_logs h dry_run
                      ++ (planned_call client dry_run h <$> take n tr)
       ∧ (r = Returns tt → n = length tr)).
Proof.
  unfold convert_to_bids. unfold mbind, M_bind, bind.
  destruct (classify ext client label path sub ses s) as [[[h tr]|e] s1] eqn:Hc.
  - intros Hrun. right. apply curate_run in Hrun as (n & ? & ? & ?).
    by exists h, tr, s1, n.
  - intros Hrun. inversion Hrun; subst. left. by exists e.
Qed.

Lemma convert_to_bids_classified client label path sub ses dry_run s
    (h : Heuristic World) tr s1 :
  classify ext client label path sub ses s = (Returns (h, tr), s1) →
  convert_to_bids ext client label path sub ses dry_run s
  = curate ext client h tr dry_run s1.
Proof.
  intros Hc. unfold convert_to_bids. unfold mbind, M_bind, bind. by rewrite Hc.
Qed.

(** The events of a run that got through lines 42-65. *)
Lemma classified_run_events client label path sub ses dry_run s
    (h : Heuristic World) tr s1 r s' :
  classify ext client label path sub ses s = (Returns (h, tr), s1) →
  convert_to_bids ext client label path sub ses dry_run s = (r, s') →
  ∃ n, n ≤ length tr
       ∧ apply_calls (new_events s s') = planned_call client dry_run h <$> take n tr
       ∧ (r = Returns tt → n = length tr).
Proof.
  intros Hc Hrun. rewrite (convert_to_bids_classified _ _ _ _ _ _ _ _ _ _ Hc) in Hrun.
  apply curate_run in Hrun as (n & Hn & Htr & Hok).
  apply classify_events_shape in Hc as (evs & Hevs & Hnone & _).
  exists n. split; [done|]. split; [|done].
  rewrite (new_events_app s s' (evs ++ curate_logs h dry_run
             ++ (planned_call client dry_run h <$> take n tr))).
  - by rewrite !apply_calls_app, Hnone, apply_calls_curate_logs, apply_calls_planned.
  - by rewrite Htr, Hevs, <- app_assoc.
Qed.

(** The loop invokes the apply layer on the items in order. *)
Lemma apply_each_in_order client dry_run (intent : Key → list Ref)
    (items : ToRename) m s r s' :
  (∀ k, default [] (m !! k) = intent k) →
  apply_each ext client dry_run items m s = (r, s') →
  apply_in_order ext client dry_run intent (world s) items r (world s').
Proof.
  intros Hm. revert s. induction items as [|[key val] rest IH]; intros s Hrun.
  - inversion Hrun; subst. constructor.
  - rewrite apply_each_cons, Hm in Hrun.
    destruct (apply_heuristic ext client key val dry_run (intent key) (world s))
      as [[[]|e] w] eqn:Hcall.
    + eapply apply_next; [exact Hcall|]. by apply IH in Hrun.
    + inversion Hrun; subst. by apply apply_raises.
Qed.

Lemma curate_in_order client (h : Heuristic World) to_rename dry_run s r s' :
  curate ext client h to_rename dry_run s = (r, s') →
  apply_in_order ext client dry_run (intentions_for h) (world s) to_rename r (world s').
Proof.
  rewrite curate_unfold. intros Hrun.
  apply (apply_each_in_order client dry_run (intentions_for h)) in Hrun; [done|].
  apply initial_intention_map_lookup.
Qed.

Lemma apply_in_order_ext client dry_run (f g : Key → list Ref) w items r w' :
  (∀ k, f k = g k) →
  apply_in_order ext client dry_run f w items r w' →
  apply_in_order ext client dry_run g w items r w'.
Proof.
  intros Hfg Hrun. induction Hrun as [w|w key val w1 rest r w2 Hcall _ IH|w key val rest e w1 Hcall].
  - constructor.
  - eapply apply_next; [by rewrite <- Hfg | done].
  - apply apply_raises. by rewrite <- Hfg.
Qed.

(** Lines 42-65 when every collaborator returns. *)
Lemma classify_run client label path sub ses s p S seqs (h : Heuristic World) tr
    w1 w2 w3 w4 w5 :
  find_first ext client (label_query label) (world s) = (Returns (Some p), w1) →
  get_project_sessions ext client (project_id p) w1 = (Returns S, w2) →
  get_seq_info ext client label (filter_sessions sub ses S) w2 = (Returns seqs, w3) →
  load_heuristic ext path w3 = (Returns h, w4) →
  infotodict h seqs w4 = (Returns tr, w5) →
  classify ext client label path sub ses s
  = (Returns (h, tr),
     {| world := w5;
        trace := trace s
          ++ classify_events client label path p (filter_sessions sub ses S) seqs |}).
Proof.
  intros H1 H2 H3 H4 H5. unfold classify. unfold_run.
  rewrite H1. simpl. rewrite H2. simpl. rewrite H3. simpl. rewrite H4. simpl.
  rewrite H5. by rewrite <- !app_assoc.
Qed.

(** A run invokes the apply layer on the classification it obtained, from
    the world the classification left. *)
Lemma classified_run_in_order client label path sub ses dry_run s
    (h : Heuristic World) tr s1 r s' :
  classify ext client label path sub ses s = (Returns (h, tr), s1) →
  convert_to_bids ext client label path sub ses dry_run s = (r, s') →
  apply_in_order ext client dry_run (intentions_for h) (world s1) tr r (world s').
Proof.
  intros Hc Hrun. rewrite (convert_to_bids_classified _ _ _ _ _ _ _ _ _ _ Hc) in Hrun.
  by apply curate_in_order.
Qed.

End Runs.

(** ** The apply calls of a run *)

Section ApplyCalls.
Context {World : Type} (ext : Collaborators World).
Implicit Types (s : State World) (h : Heuristic World).

(** C1: in a run in which the loader returned the heuristic [h] and its
    classification function returned the mapping [tr], every call to the
    apply layer is for an item of [tr] and carries, as its intention list,
    the entry of [h]'s IntendedFor for that key when there is one, and the
    empty list when IntendedFor has no such key or [h] has no IntendedFor
    at all; when the run returns, the call for the j-th item of [tr] is the
    j-th apply call.  These are the lists the apply layer is really invoked
    with: the outcome and the final world of the run are those of invoking
    [apply_heuristic] on the items of [tr] in order, each with that list.
    The lookup cannot fail: no call is ever left without its intention
    list. *)
Theorem intentions_default_to_empty client label path sub ses dry_run s
    p S seq_infos h tr w1 w2 w3 w4 w5 r s' :
  find_first ext client (label_query label) (world s) = (Returns (Some p), w1) →
  get_project_sessions ext client (project_id p) w1 = (Returns S, w2) →
  get_seq_info ext client label (filter_sessions sub ses S) w2
    = (Returns seq_infos, w3) →
  load_heuristic ext path w3 = (Returns h, w4) →
  infotodict h seq_infos w4 = (Returns tr, w5) →
  convert_to_bids ext client label path sub ses dry_run s = (r, s') →
  (∀ c k v d i, EvApplyHeuristic c k v d i ∈ new_events s s' →
     (k, v) ∈ tr
     ∧ match IntendedFor h with
       | Some intended_for =>
           match intended_for !! k with
           | Some l => i = l
           | None => i = []
           end
       | None => i = []
       end)
  ∧ (r = Returns tt →
     ∀ j k v, tr !! j = Some (k, v) →
       apply_calls (new_events s s') !! j
       = Some (EvApplyHeuristic client k v dry_run (intentions_for h k)))
  ∧ apply_in_order ext client dry_run
      (λ k, match IntendedFor h with
            | Some intended_for =>
                match intended_for !! k with
                | Some l => l
                | None => []
                end
            | None => []
            end)
      w5 tr r (world s').
Proof.
  intros H1 H2 H3 H4 H5 Hrun.
  pose proof (classify_run ext _ _ _ sub ses s _ _ _ _ _ _ _ _ _ _ H1 H2 H3 H4 H5) as Hc.
  destruct (classified_run_events ext _ _ _ _ _ _ _ _ _ _ _ _ Hc Hrun)
    as (n & Hn & Hcalls & Hok).
  split_and!.
  - intros c k v d i Hin.
    assert (EvApplyHeuristic c k v d i ∈ apply_calls (new_events s s')) as Hin'.
    { unfold apply_calls. apply list_elem_of_filter. by split. }
    rewrite Hcalls in Hin'. apply list_elem_of_fmap in Hin' as ([k' v'] & Heq & Hit).
    unfold planned_call in Heq. simpl in Heq. inversion Heq; subst.
    split.
    + eapply elem_of_sublist; [exact Hit|]. apply sublist_take.
    + unfold intentions_for. destruct (IntendedFor h) as [m|]; [|done].
      by destruct (m !! k').
  - intros Hr j k v Hj. rewrite Hcalls, (Hok Hr), firstn_all.
    rewrite list_lookup_fmap. unfold ToRename in *. by rewrite Hj.
  - apply (apply_in_order_ext ext client dry_run (intentions_for h)).
    + intros k. unfold intentions_for. destruct (IntendedFor h) as [m|]; [|done].
      by destruct (m !! k).
    + exact (classified_run_in_order ext _ _ _ _ _ _ _ _ _ _ _ _ Hc Hrun).
Qed.

(** C5: a run that returns has called the classification entry point of
    the heuristic it loaded exactly once, on the sequence infos the query
    layer returned, and the apply layer exactly once per item of the mapping
    that call returned, in the order of the mapping: each call is an
    invocation of [apply_heuristic] with the client handle, the key, its
    matched sequences, the dry-run flag and the intention list of the key,
    on the world the call before it left. *)
Theorem one_apply_call_per_key client label path sub ses dry_run s s' :
  convert_to_bids ext client label path sub ses dry_run s = (Returns tt, s') →
  ∃ p S seq_infos h tr w1 w2 w3 w4 w5,
    find_first ext client (label_query label) (world s) = (Returns (Some p), w1)
    ∧ get_project_sessions ext client (project_id p) w1 = (Returns S, w2)
    ∧ get_seq_info ext client label (filter_sessions sub ses S) w2
      = (Returns seq_infos, w3)
    ∧ load_heuristic ext path w3 = (Returns h, w4)
    ∧ infotodict h seq_infos w4 = (Returns tr, w5)
    ∧ filter (λ ev, is_infotodict ev = true) (new_events s s') = [EvInfotodict seq_infos]
    ∧ apply_calls (new_events s s')
      = (λ it, EvApplyHeuristic client it.1 it.2 dry_run (intentions_for h it.1)) <$> tr
    ∧ length (apply_calls (new_events s s')) = length tr
    ∧ apply_in_order ext client dry_run (intentions_for h) w5 tr (Returns tt) (world s').
Proof.
  intros Hrun.
  destruct (convert_to_bids_run ext _ _ _ _ _ _ _ _ _ Hrun)
    as [(e & _ & ?)|(h & tr & s1 & n & Hc & Hn & Htr & Hok)]; [done|].
  destruct (classified_run_events ext _ _ _ _ _ _ _ _ _ _ _ _ Hc Hrun)
    as (n' & _ & Hcalls & Hok').
  rewrite (Hok' eq_refl), firstn_all in Hcalls.
  rewrite (Hok eq_refl), firstn_all in Htr.
  pose proof (classified_run_in_order ext _ _ _ _ _ _ _ _ _ _ _ _ Hc Hrun) as Hinv.
  destruct (classify_returns ext _ _ _ _ _ _ _ _ _ Hc)
    as (p & S & seqs & w1 & w2 & w3 & w4 & H1 & H2 & H3 & H4 & H5 & Hevs).
  exists p, S, seqs, h, tr, w1, w2, w3, w4, (world s1).
  do 5 (split; [done|]). split_and!.
  - rewrite (new_events_app s s'
               (classify_events client label path p (filter_sessions sub ses S) seqs
                ++ curate_logs h dry_run ++ (planned_call client dry_run h <$> tr))).
    + by rewrite filter_app, infotodict_calls_curate, app_nil_r.
    + by rewrite Htr, Hevs, <- app_assoc.
  - exact Hcalls.
  - by rewrite Hcalls, length_fmap.
  - exact Hinv.
Qed.

End ApplyCalls.

Lemma intentions_default_to_empty_witness :
  let s := Demo.fresh [] in
  let s' := (convert_to_bids Demo.services Demo.fw "StudyA" "intended.py"
               None None false s).2 in
  let h := Demo.with_intentions in
  (∀ c k v d i, EvApplyHeuristic c k v d i ∈ new_events s s' →
     (k, v) ∈ Demo.classification
     ∧ match IntendedFor h with
       | Some intended_for =>
           match intended_for !! k with
           | Some l => i = l
           | None => i = []
           end
       | None => i = []
       end)
  ∧ (Returns tt = Returns tt →
     ∀ j k v, Demo.classification !! j = Some (k, v) →
       apply_calls (new_events s s') !! j
       = Some (EvApplyHeuristic Demo.fw k v false (intentions_for h k)))
  ∧ apply_in_order Demo.services Demo.fw false
      (λ k, match IntendedFor h with
            | Some intended_for =>
                match intended_for !! k with
                | Some l => l
                | None => []
                end
            | None => []
            end)
      (world s) Demo.classification (Returns tt) (world s').
Proof.
  intros s s' h.
  exact (intentions_default_to_empty Demo.services Demo.fw "StudyA" "intended.py"
           None None false s Demo.study_a [Demo.ses_sub01; Demo.ses_sub02]
           (Demo.seq_of <$> [Demo.ses_sub01; Demo.ses_sub02])
           h Demo.classification (world s) (world s) (world s) (world s) (world s)
           (Returns tt) s' eq_refl eq_refl eq_refl eq_refl eq_refl eq_refl).
Defined.

Lemma one_apply_call_per_key_witness :
  let s := Demo.fresh [] in
  let s' := (convert_to_bids Demo.services Demo.fw "StudyA" "plain.py"
               None None false s).2 in
  ∃ p S seq_infos h tr w1 w2 w3 w4 w5,
    find_first Demo.services Demo.fw (label_query "StudyA") (world s)
      = (Returns (Some p), w1)
    ∧ get_project_sessions Demo.services Demo.fw (project_id p) w1 = (Returns S, w2)
    ∧ get_seq_info Demo.services Demo.fw "StudyA" (filter_sessions None None S) w2
      = (Returns seq_infos, w3)
    ∧ load_heuristic Demo.services "plain.py" w3 = (Returns h, w4)
    ∧ infotodict h seq_infos w4 = (Returns tr, w5)
    ∧ filter (λ ev, is_infotodict ev = true) (new_events s s') = [EvInfotodict seq_infos]
    ∧ apply_calls (new_events s s')
      = (λ it, EvApplyHeuristic Demo.fw it.1 it.2 false (intentions_for h it.1)) <$> tr
    ∧ length (apply_calls (new_events s s')) = length tr
    ∧ apply_in_order Demo.services Demo.fw false (intentions_for h) w5 tr
        (Returns tt) (world s').
Proof.
  intros s s'.
  exact (one_apply_call_per_key Demo.services Demo.fw "StudyA" "plain.py"
           None None false s s' eq_refl).
Defined.

(** ** Failures *)

Section Failures.
Context {World : Type} (ext : Collaborators World).
Implicit Types (s : State World) (h : Heuristic World).

(** C7: when the calls for the items [before] have returned and the call
    for the next item [(k, v)] raises [e], the run ends at once with [e]:
    the failing call is the last event, the world it left is the final
    world (nothing is undone or compensated), the calls for [before] have
    all been made, and no call is made twice or made again. *)
Theorem apply_failure_propagates client label path sub ses dry_run s h
    before k v after s1 s2 e w :
  classify ext client label path sub ses s
    = (Returns (h, before ++ (k, v) :: after), s1) →
  curate ext client h before dry_run s1 = (Returns tt, s2) →
  apply_heuristic ext client k v dry_run (intentions_for h k) (world s2)
    = (Raises e, w) →
  let s' := {| world := w;
               trace := trace s2
                 ++ [EvApplyHeuristic client k v dry_run (intentions_for h k)] |} in
  convert_to_bids ext client label path sub ses dry_run s = (Raises e, s')
  ∧ apply_calls (new_events s s')
    = planned_call client dry_run h <$> (before ++ [(k, v)]).
Proof.
  intros Hc Hbefore Hfail s'. split.
  - rewrite (convert_to_bids_classified ext _ _ _ _ _ _ _ _ _ _ Hc).
    rewrite curate_unfold in Hbefore |- *.
    rewrite apply_each_app, Hbefore, apply_each_cons.
    rewrite initial_intention_map_lookup, Hfail. done.
  - apply curate_run in Hbefore as (n & _ & Htr & Hn).
    rewrite (Hn eq_refl), firstn_all in Htr.
    apply classify_events_shape in Hc as (evs & Hevs & Hnone & _).
    rewrite (new_events_app s s' (evs ++ curate_logs h dry_run
               ++ (planned_call client dry_run h <$> before)
               ++ [planned_call client dry_run h (k, v)])).
    + rewrite !apply_calls_app, Hnone, apply_calls_curate_logs, apply_calls_planned.
      by rewrite fmap_app.
    + unfold s'. simpl. rewrite Htr, Hevs, <- !app_assoc. done.
Qed.

(** C2 (as amended): when the project lookup does not produce a project,
    the run raises before any session or sequence-info query: it raises
    the lookup's own exception when the lookup raised, and [TypeError]
    (from [project_obj['label']] on line 44) when the lookup returned
    [None].  The only events are the first log record and the lookup. *)
Theorem project_lookup_failure client label path sub ses dry_run s o w :
  find_first ext client (label_query label) (world s) = (o, w) →
  (∀ p, o ≠ Returns (Some p)) →
  ∃ e s',
    convert_to_bids ext client label path sub ses dry_run s = (Raises e, s')
    ∧ (o = Raises e
       ∨ (o = Returns None ∧ e = TypeError "'NoneType' object is not subscriptable"))
    ∧ world s' = w
    ∧ new_events s s' = [EvLog INFO "Querying Flywheel server...";
                         EvFindFirst client (label_query label)]
    ∧ filter (λ ev, is_query ev = true) (new_events s s') = [].
Proof.
  intros Hfind Hno.
  unfold convert_to_bids, classify.
  unfold mbind, M_bind, bind, call, log, ret, raise. simpl. rewrite Hfind.
  destruct o as [[p|]|e].
  - by destruct (Hno p).
  - eexists _, _. split; [done|]. split; [by right|]. split; [done|].
    rewrite (new_events_app s _ [EvLog INFO "Querying Flywheel server...";
                                 EvFindFirst client (label_query label)]);
      [done | by simpl; rewrite <- app_assoc].
  - eexists _, _. split; [done|]. split; [by left|]. split; [done|].
    rewrite (new_events_app s _ [EvLog INFO "Querying Flywheel server...";
                                 EvFindFirst client (label_query label)]);
      [done | by simpl; rewrite <- app_assoc].
Qed.

End Failures.

Lemma apply_failure_propagates_witness :
  let s := Demo.fresh ["key2"] in
  let h := Demo.plain in
  let s2 := (curate Demo.services Demo.fw h [("key1", ["seqA"])] false
               (classify Demo.services Demo.fw "StudyA" "plain.py" None None s).2).2 in
  let s' := {| world := {| Demo.locked := ["key2"]; Demo.written := ["key1"] |};
               trace := trace s2
                 ++ [EvApplyHeuristic Demo.fw "key2" ["seqB"; "seqC"] false
                       (intentions_for h "key2")] |} in
  convert_to_bids Demo.services Demo.fw "StudyA" "plain.py" None None false s
  = (Raises (Exc "ApiException" "write rejected"), s')
  ∧ apply_calls (new_events s s')
    = planned_call Demo.fw false h <$> ([("key1", ["seqA"])] ++ [("key2", ["seqB"; "seqC"])]).
Proof.
  intros s h s2.
  exact (apply_failure_propagates Demo.services Demo.fw "StudyA" "plain.py" None None
           false s h [("key1", ["seqA"])] "key2" ["seqB"; "seqC"] []
           (classify Demo.services Demo.fw "StudyA" "plain.py" None None s).2 s2
           (Exc "ApiException" "write rejected")
           {| Demo.locked := ["key2"]; Demo.written := ["key1"] |}
           eq_refl eq_refl eq_refl).
Defined.

Lemma project_lookup_failure_witness :
  let s := Demo.fresh [] in
  let o : outcome (option Project) := Returns None in
  ∃ e s',
    convert_to_bids Demo.services Demo.fw "StudyB" "plain.py" None None false s
      = (Raises e, s')
    ∧ (o = Raises e
       ∨ (o = Returns None ∧ e = TypeError "'NoneType' object is not subscriptable"))
    ∧ world s' = world s
    ∧ new_events s s' = [EvLog INFO "Querying Flywheel server...";
                         EvFindFirst Demo.fw (label_query "StudyB")]
    ∧ filter (λ ev, is_query ev = true) (new_events s s') = [].
Proof.
  intros s o.
  apply (project_lookup_failure Demo.services Demo.fw "StudyB" "plain.py" None None
           false s o (world s) eq_refl).
  intros p. discriminate.
Defined.

(** A label that matches no project: the lookup returns [None], as the
    client library documents for [find_first], and what reaches the caller
    is the [TypeError] of line 44, not a not-found error. *)
Lemma project_not_found_counterexample :
  (convert_to_bids Demo.services Demo.fw "StudyB" "plain.py" None None false
     (Demo.fresh [])).1
  = Raises (TypeError "'NoneType' object is not subscriptable")
  ∧ ∀ msg, (convert_to_bids Demo.services Demo.fw "StudyB" "plain.py" None None false
              (Demo.fresh [])).1
           ≠ Raises (Exc "NotFoundError" msg).
Proof. split; [reflexivity | intros msg; discriminate]. Qed.

(** ** The dry-run flag *)

Section DryRun.
Context {World : Type} (ext : Collaborators World).
Implicit Types (s : State World) (h : Heuristic World).

Lemma erase_planned_calls client dry_run h (items : ToRename) :
  erase_dry_run <$> (planned_call client dry_run h <$> items)
  = planned_call client false h <$> items.
Proof. rewrite <- list_fmap_compose. by apply list_fmap_ext. Qed.

Lemma take_prefix_le {A : Type} (l : list A) n1 n2 :
  n1 ≤ n2 → take n1 l `prefix_of` take n2 l.
Proof.
  intros Hle. replace (take n1 l) with (take n1 (take n2 l)).
  - apply prefix_take.
  - rewrite take_take. f_equal. lia.
Qed.

Lemma other_events_curate client h d1 d2 (items1 items2 : ToRename) :
  filter (λ ev, is_apply ev = false ∧ announces_changes ev = false)
    (curate_logs h d1 ++ (planned_call client d1 h <$> items1))
  = filter (λ ev, is_apply ev = false ∧ announces_changes ev = false)
      (curate_logs h d2 ++ (planned_call client d2 h <$> items2)).
Proof.
  assert (∀ d (items : ToRename),
            filter (λ ev, is_apply ev = false ∧ announces_changes ev = false)
              (planned_call client d h <$> items) = []) as Hnone.
  { intros d items. induction items as [|it items IH]; [done|]. simpl.
    rewrite filter_cons_False; [done|]. simpl. intros [? _]. done. }
  rewrite !filter_app, !Hnone. f_equal.
  unfold curate_logs. by destruct d1, d2, (IntendedFor h).
Qed.

(** C6 (as amended): the flag given to the orchestrator is the flag of
    every apply call: [apply_heuristic] is invoked with it, on every item
    in turn, and it is the flag recorded for the call.  Of two runs from
    the same state that differ in the
    flag only, the apply calls, flag apart, are the same up to the point
    where one of the runs is stopped by an apply call that raises, and the
    same throughout when both runs return; every other event is the same
    too, except the record "Applying changes to files...", which the
    orchestrator logs only when the flag is off. *)
Theorem dry_run_is_threaded client label path sub ses s d1 d2 r1 s1' r2 s2' :
  convert_to_bids ext client label path sub ses d1 s = (r1, s1') →
  convert_to_bids ext client label path sub ses d2 s = (r2, s2') →
  let calls1 := apply_calls (new_events s s1') in
  let calls2 := apply_calls (new_events s s2') in
  (∀ p S seq_infos h tr w1 w2 w3 w4 w5,
     find_first ext client (label_query label) (world s) = (Returns (Some p), w1) →
     get_project_sessions ext client (project_id p) w1 = (Returns S, w2) →
     get_seq_info ext client label (filter_sessions sub ses S) w2
       = (Returns seq_infos, w3) →
     load_heuristic ext path w3 = (Returns h, w4) →
     infotodict h seq_infos w4 = (Returns tr, w5) →
     apply_in_order ext client d1 (intentions_for h) w5 tr r1 (world s1')
     ∧ apply_in_order ext client d2 (intentions_for h) w5 tr r2 (world s2'))
  ∧ (∀ c k v d i, EvApplyHeuristic c k v d i ∈ calls1 → d = d1)
  ∧ ((erase_dry_run <$> calls1) `prefix_of` (erase_dry_run <$> calls2)
     ∨ (erase_dry_run <$> calls2) `prefix_of` (erase_dry_run <$> calls1))
  ∧ (r1 = Returns tt → r2 = Returns tt →
     erase_dry_run <$> calls1 = erase_dry_run <$> calls2)
  ∧ filter (λ ev, is_apply ev = false ∧ announces_changes ev = false)
      (new_events s s1')
    = filter (λ ev, is_apply ev = false ∧ announces_changes ev = false)
        (new_events s s2')
  ∧ (EvLog INFO "Applying changes to files..." ∈ new_events s s1' → d1 = false).
Proof.
  intros Hrun1 Hrun2 calls1 calls2.
  split.
  { intros p S seq_infos h tr w1 w2 w3 w4 w5 H1 H2 H3 H4 H5.
    pose proof (classify_run ext _ _ _ sub ses s _ _ _ _ _ _ _ _ _ _ H1 H2 H3 H4 H5)
      as Hc.
    split.
    - exact (classified_run_in_order ext _ _ _ _ _ _ _ _ _ _ _ _ Hc Hrun1).
    - exact (classified_run_in_order ext _ _ _ _ _ _ _ _ _ _ _ _ Hc Hrun2). }
  destruct (convert_to_bids_run ext _ _ _ _ _ _ _ _ _ Hrun1)
    as [(e1 & Hc1 & ->)|(h & tr & s1 & n1 & Hc1 & Hn1 & Htr1 & Hok1)].
  - (* lines 42-65 raised: the flag was never looked at *)
    destruct (convert_to_bids_run ext _ _ _ _ _ _ _ _ _ Hrun2)
      as [(e2 & Hc2 & ->)|(h & tr & s1 & n2 & Hc2 & _)]; [|congruence].
    assert (s2' = s1') as -> by congruence.
    apply classify_events_shape in Hc1 as (evs & Hevs & Hnone & _).
    unfold calls1, calls2. rewrite (new_events_app _ _ _ Hevs), Hnone.
    split; [intros c k v d i Hin; by apply elem_of_nil in Hin|].
    split; [by left|]. split; [done|]. split; [done|].
    intros Hin.
    by pose proof (classify_no_announcement ext _ _ _ _ _ _ _ _ _ _ Hc2 Hevs Hin).
  - destruct (convert_to_bids_run ext _ _ _ _ _ _ _ _ _ Hrun2)
      as [(e2 & Hc2 & ->)|(h' & tr' & s1_ & n2 & Hc2 & Hn2 & Htr2 & Hok2)];
      [congruence|].
    assert (h' = h ∧ tr' = tr ∧ s1_ = s1) as (-> & -> & ->).
    { rewrite Hc1 in Hc2. by inversion Hc2. }
    apply classify_events_shape in Hc1 as (evs & Hevs & Hnone & _).
    assert (new_events s s1' = evs ++ curate_logs h d1
              ++ (planned_call client d1 h <$> take n1 tr)) as Hev1.
    { apply new_events_app. by rewrite Htr1, Hevs, <- app_assoc. }
    assert (new_events s s2' = evs ++ curate_logs h d2
              ++ (planned_call client d2 h <$> take n2 tr)) as Hev2.
    { apply new_events_app. by rewrite Htr2, Hevs, <- app_assoc. }
    assert (calls1 = planned_call client d1 h <$> take n1 tr) as Hcalls1.
    { unfold calls1. rewrite Hev1.
      by rewrite !apply_calls_app, Hnone, apply_calls_curate_logs, apply_calls_planned. }
    assert (calls2 = planned_call client d2 h <$> take n2 tr) as Hcalls2.
    { unfold calls2. rewrite Hev2.
      by rewrite !apply_calls_app, Hnone, apply_calls_curate_logs, apply_calls_planned. }
    rewrite Hcalls1, Hcalls2, !erase_planned_calls. split_and!.
    + intros c k v d i Hin. apply list_elem_of_fmap in Hin as (it & Heq & _).
      unfold planned_call in Heq. by inversion Heq.
    + destruct (decide (n1 ≤ n2)).
      * left. rewrite !fmap_take. by apply take_prefix_le.
      * right. rewrite !fmap_take. apply take_prefix_le. lia.
    + intros Hr1 Hr2. by rewrite (Hok1 Hr1), (Hok2 Hr2).
    + rewrite Hev1, Hev2. rewrite !(filter_app _ evs). f_equal.
      apply other_events_curate.
    + rewrite Hev1. intros Hin.
      apply elem_of_app in Hin as [Hin|Hin];
        [by pose proof (classify_no_announcement ext _ _ _ _ _ _ _ _ _ _
                          Hc2 Hevs Hin)|].
      apply elem_of_app in Hin as [Hin|Hin].
      * unfold curate_logs in Hin. destruct d1; [|done].
        destruct (IntendedFor h); simpl in Hin;
          repeat (apply elem_of_cons in Hin as [Hin|Hin]; [discriminate|]);
          by apply elem_of_nil in Hin.
      * apply list_elem_of_fmap in Hin as (it & Heq & _). discriminate.
Qed.

End DryRun.

Lemma dry_run_is_threaded_witness :
  let s := Demo.fresh ["key1"] in
  let run d := convert_to_bids Demo.services Demo.fw "StudyA" "intended.py"
                 None None d s in
  let calls1 := apply_calls (new_events s (run false).2) in
  let calls2 := apply_calls (new_events s (run true).2) in
  (apply_in_order Demo.services Demo.fw false (intentions_for Demo.with_intentions)
     (world s) Demo.classification (run false).1 (world (run false).2)
   ∧ apply_in_order Demo.services Demo.fw true (intentions_for Demo.with_intentions)
       (world s) Demo.classification (run true).1 (world (run true).2))
  ∧ (∀ c k v d i, EvApplyHeuristic c k v d i ∈ calls1 → d = false)
  ∧ ((erase_dry_run <$> calls1) `prefix_of` (erase_dry_run <$> calls2)
     ∨ (erase_dry_run <$> calls2) `prefix_of` (erase_dry_run <$> calls1))
  ∧ ((run false).1 = Returns tt → (run true).1 = Returns tt →
     erase_dry_run <$> calls1 = erase_dry_run <$> calls2)
  ∧ filter (λ ev, is_apply ev = false ∧ announces_changes ev = false)
      (new_events s (run false).2)
    = filter (λ ev, is_apply ev = false ∧ announces_changes ev = false)
        (new_events s (run true).2)
  ∧ (EvLog INFO "Applying changes to files..." ∈ new_events s (run false).2 →
     false = false).
Proof.
  intros s run.
  destruct (dry_run_is_threaded Demo.services Demo.fw "StudyA" "intended.py" None None
              s false true (run false).1 (run false).2 (run true).1 (run true).2
              eq_refl eq_refl) as [Hinvoked Hrest].
  split; [|exact Hrest].
  exact (Hinvoked Demo.study_a [Demo.ses_sub01; Demo.ses_sub02]
           (Demo.seq_of <$> [Demo.ses_sub01; Demo.ses_sub02])
           Demo.with_intentions Demo.classification
           (world s) (world s) (world s) (world s) (world s)
           eq_refl eq_refl eq_refl eq_refl eq_refl).
Defined.

(** Two runs on the same remote, where key1 is locked, that differ in the
    flag only.  The run that writes logs one record more, and its first
    apply call is rejected, so that it makes one apply call where the dry
    run makes two. *)
Lemma dry_run_counterexample :
  let run d := convert_to_bids Demo.services Demo.fw "StudyA" "plain.py"
                 None None d (Demo.fresh ["key1"]) in
  filter (λ ev, is_log ev = true) (trace (run false).2)
    ≠ filter (λ ev, is_log ev = true) (trace (run true).2)
  ∧ (EvLog INFO "Applying changes to files..." ∈ trace (run false).2)
  ∧ (EvLog INFO "Applying changes to files..." ∉ trace (run true).2)
  ∧ erase_dry_run <$> apply_calls (trace (run false).2)
    ≠ erase_dry_run <$> apply_calls (trace (run true).2)
  ∧ length (apply_calls (trace (run false).2)) = 1
  ∧ length (apply_calls (trace (run true).2)) = 2.
Proof.
  intros run. split_and!.
  - vm_compute. discriminate.
  - vm_compute. do 11 right. left.
  - vm_compute. intros Hin.
    repeat (apply elem_of_cons in Hin as [Hin|Hin]; [discriminate|]).
    by apply elem_of_nil in Hin.
  - vm_compute. discriminate.
  - reflexivity.
  - reflexivity.
Qed.

(** ** IntendedFor entries for keys that are not classified *)

Section StrayIntentions.
Context {World : Type} (ext : Collaborators World).
Implicit Types (s : State World) (h : Heuristic World).

(** Two defaultdicts that agree, by lookup with default, on the keys of
    the items drive the loop through the same calls. *)
Lemma apply_each_agree client dry_run (items : ToRename) m1 m2 sa sb :
  (∀ k, k ∈ items.*1 → default [] (m1 !! k) = default [] (m2 !! k)) →
  world sa = world sb →
  ∃ r w evs,
    apply_each ext client dry_run items m1 sa
      = (r, {| world := w; trace := trace sa ++ evs |})
    ∧ apply_each ext client dry_run items m2 sb
      = (r, {| world := w; trace := trace sb ++ evs |}).
Proof.
  revert sa sb. induction items as [|[key val] rest IH]; intros sa sb Hagree Hw.
  - exists (Returns tt), (world sa), []. simpl. unfold ret.
    rewrite !app_nil_r. destruct sa, sb; simpl in *; by subst.
  - rewrite !apply_each_cons.
    rewrite <- (Hagree key) by (simpl; by left). rewrite <- Hw.
    destruct (apply_heuristic _ _ _ _ _ _ _) as [[[]|e] w].
    + destruct (IH {| world := w;
                      trace := trace sa ++ [EvApplyHeuristic client key val dry_run
                                              (default [] (m1 !! key))] |}
                   {| world := w;
                      trace := trace sb ++ [EvApplyHeuristic client key val dry_run
                                              (default [] (m1 !! key))] |})
        as (r & w' & evs & Ha & Hb); [|done|].
      { intros k Hk. apply Hagree. simpl. by right. }
      exists r, w', (EvApplyHeuristic client key val dry_run (default [] (m1 !! key))
                     :: evs).
      rewrite Ha, Hb. simpl. by rewrite <- !app_assoc.
    + by eexists _, _, [_].
Qed.

(** C9: two heuristics that return the same classification and whose
    IntendedFor differ only on keys outside that classification lead to
    the same apply calls, the same outcome and the same final world; and
    every apply call is for a classified key, so that a stray entry gets
    no call of its own. *)
Theorem stray_intentions_ignored client label path1 path2 sub ses dry_run s
    h1 h2 tr s1 s2 :
  classify ext client label path1 sub ses s = (Returns (h1, tr), s1) →
  classify ext client label path2 sub ses s = (Returns (h2, tr), s2) →
  world s1 = world s2 →
  (∀ k, k ∈ tr.*1 → intentions_for h1 k = intentions_for h2 k) →
  let run1 := convert_to_bids ext client label path1 sub ses dry_run s in
  let run2 := convert_to_bids ext client label path2 sub ses dry_run s in
  run1.1 = run2.1
  ∧ world run1.2 = world run2.2
  ∧ apply_calls (new_events s run1.2) = apply_calls (new_events s run2.2)
  ∧ ∀ c k v d i, EvApplyHeuristic c k v d i ∈ new_events s run1.2 → k ∈ tr.*1.
Proof.
  intros Hc1 Hc2 Hw Hagree run1 run2.
  destruct run1 as [r1 s1'] eqn:Hrun1. destruct run2 as [r2 s2'] eqn:Hrun2.
  unfold run1 in Hrun1. unfold run2 in Hrun2. simpl.
  destruct (classified_run_events ext _ _ _ _ _ _ _ _ _ _ _ _ Hc1 Hrun1)
    as (n & _ & Hcalls & _).
  rewrite (convert_to_bids_classified ext _ _ _ _ _ _ _ _ _ _ Hc1) in Hrun1.
  rewrite (convert_to_bids_classified ext _ _ _ _ _ _ _ _ _ _ Hc2) in Hrun2.
  rewrite curate_unfold in Hrun1, Hrun2.
  destruct (apply_each_agree client dry_run tr
              (initial_intention_map h1) (initial_intention_map h2)
              (record s1 (curate_logs h1 dry_run)) (record s2 (curate_logs h2 dry_run)))
    as (r & w & evs & Ha & Hb); [|done|].
  { intros k Hk. rewrite !initial_intention_map_lookup. by apply Hagree. }
  rewrite Ha in Hrun1. rewrite Hb in Hrun2.
  inversion Hrun1; subst. inversion Hrun2; subst. simpl.
  split; [done|]. split; [done|]. split.
  - apply classify_events_shape in Hc1 as (evs1 & Hevs1 & Hnone1 & _).
    apply classify_events_shape in Hc2 as (evs2 & Hevs2 & Hnone2 & _).
    rewrite (new_events_app s _ (evs1 ++ curate_logs h1 dry_run ++ evs))
      by (simpl; by rewrite Hevs1, <- !app_assoc).
    rewrite (new_events_app s _ (evs2 ++ curate_logs h2 dry_run ++ evs))
      by (simpl; by rewrite Hevs2, <- !app_assoc).
    by rewrite !apply_calls_app, Hnone1, Hnone2, !apply_calls_curate_logs.
  - intros c k v d i Hin.
    assert (EvApplyHeuristic c k v d i ∈ planned_call client dry_run h1 <$> take n tr)
      as Hin'.
    { rewrite <- Hcalls. unfold apply_calls. apply list_elem_of_filter. by split. }
    apply list_elem_of_fmap in Hin' as ([k' v'] & Heq & Hit).
    inversion Heq; subst. apply list_elem_of_fmap. exists (k', v'). split; [done|].
    eapply elem_of_sublist; [exact Hit | apply sublist_take].
Qed.

End StrayIntentions.

Lemma stray_intentions_ignored_witness :
  let s := Demo.fresh [] in
  let run1 := convert_to_bids Demo.services Demo.fw "StudyA" "intended.py"
                None None false s in
  let run2 := convert_to_bids Demo.services Demo.fw "StudyA" "stray.py"
                None None false s in
  run1.1 = run2.1
  ∧ world run1.2 = world run2.2
  ∧ apply_calls (new_events s run1.2) = apply_calls (new_events s run2.2)
  ∧ ∀ c k v d i, EvApplyHeuristic c k v d i ∈ new_events s run1.2
                 → k ∈ Demo.classification.*1.
Proof.
  intros s.
  apply (stray_intentions_ignored Demo.services Demo.fw "StudyA" "intended.py" "stray.py"
           None None false s Demo.with_intentions Demo.with_stray_intention
           Demo.classification
           (classify Demo.services Demo.fw "StudyA" "intended.py" None None s).2
           (classify Demo.services Demo.fw "StudyA" "stray.py" None None s).2
           eq_refl eq_refl eq_refl).
  intros k Hk.
  apply elem_of_cons in Hk as [->|Hk]; [reflexivity|].
  apply elem_of_cons in Hk as [->|Hk]; [reflexivity|].
  by apply elem_of_nil in Hk.
Defined.

(** ** The sessions handed to the query layer *)

Section Queries.
Context {World : Type} (ext : Collaborators World).
Implicit Types (s : State World).

Lemma count_occ_filter_by_subject F (S : list Session) (a : Session) :
  count_occ (decide_rel (=)) (filter_by_subject F S) a ≤ count_occ (decide_rel (=)) S a.
Proof.
  unfold filter_by_subject, keep_subjects. destruct (truthy F); [|done].
  apply (count_occ_filter_le
           (λ x, py_in (subject_label (session_subject x)) (default [] F) = true)).
Qed.

Lemma count_occ_filter_by_session F (S : list Session) (a : Session) :
  count_occ (decide_rel (=)) (filter_by_session F S) a ≤ count_occ (decide_rel (=)) S a.
Proof.
  unfold filter_by_session, keep_sessions. destruct (truthy F); [|done].
  apply (count_occ_filter_le (λ x, py_in (session_label x) (default [] F) = true)).
Qed.

(** C10: once the session query has returned the list [S], the sessions
    handed to [get_seq_info] are [S] after the subject filter and then the
    session filter; each filter returns a subsequence of the list it is
    given, so that the result is a subsequence of [S]: the order is kept
    and no session occurs more often than before. *)
Theorem filters_keep_a_subsequence client label path sub ses s p S w1 w2 :
  find_first ext client (label_query label) (world s) = (Returns (Some p), w1) →
  get_project_sessions ext client (project_id p) w1 = (Returns S, w2) →
  let after_subject := filter_by_subject sub S in
  let kept := filter_by_session ses after_subject in
  EvGetSeqInfo client label kept
    ∈ new_events s (classify ext client label path sub ses s).2
  ∧ (∀ c l k, EvGetSeqInfo c l k
                ∈ new_events s (classify ext client label path sub ses s).2 →
              k = kept)
  ∧ after_subject `sublist_of` S
  ∧ kept `sublist_of` after_subject
  ∧ kept `sublist_of` S
  ∧ (∀ a, count_occ (decide_rel (=)) kept a ≤ count_occ (decide_rel (=)) after_subject a
          ∧ count_occ (decide_rel (=)) after_subject a ≤ count_occ (decide_rel (=)) S a)
  ∧ length kept ≤ length S.
Proof.
  intros Hfind Hsessions after_subject kept.
  assert (kept `sublist_of` S) as Hsub by apply filter_sessions_sublist.
  split_and!.
  - unfold classify, mbind, M_bind, bind, call, log, ret, raise. simpl.
    rewrite Hfind. simpl. rewrite Hsessions. simpl.
    fold after_subject. unfold filter_sessions. fold after_subject. fold kept.
    destruct (get_seq_info _ _ _ _ _) as [[seqs|e3] w3];
      [destruct (load_heuristic _ _ _) as [[h|e4] w4];
       [destruct (infotodict _ _ _) as [[tr|e5] w5]|]|];
      simpl; unfold new_events; simpl; rewrite <- !app_assoc, drop_app_length;
      simpl; do 5 right; left.
  - unfold classify, mbind, M_bind, bind, call, log, ret, raise. simpl.
    rewrite Hfind. simpl. rewrite Hsessions. simpl.
    unfold filter_sessions. fold after_subject. fold kept.
    intros c l k.
    destruct (get_seq_info _ _ _ _ _) as [[seqs|e3] w3];
      [destruct (load_heuristic _ _ _) as [[h|e4] w4];
       [destruct (infotodict _ _ _) as [[tr|e5] w5]|]|];
      simpl; unfold new_events; simpl; rewrite <- !app_assoc, drop_app_length;
      simpl; intros Hin;
      repeat (apply elem_of_cons in Hin as [Hin|Hin]; [by inversion Hin|]);
      by apply elem_of_nil in Hin.
  - apply filter_by_subject_sublist.
  - apply filter_by_session_sublist.
  - exact Hsub.
  - intros a. split; [apply count_occ_filter_by_session | apply count_occ_filter_by_subject].
  - by apply sublist_length.
Qed.

End Queries.

Lemma filters_keep_a_subsequence_witness :
  let s := Demo.fresh [] in
  let S := [Demo.ses_sub01; Demo.ses_sub02] in
  let after_subject := filter_by_subject (Some ["sub-02"; "sub-03"]) S in
  let kept := filter_by_session (Some ["ses-1"]) after_subject in
  EvGetSeqInfo Demo.fw "StudyA" kept
    ∈ new_events s (classify Demo.services Demo.fw "StudyA" "plain.py"
                      (Some ["sub-02"; "sub-03"]) (Some ["ses-1"]) s).2
  ∧ (∀ c l k, EvGetSeqInfo c l k
                ∈ new_events s (classify Demo.services Demo.fw "StudyA" "plain.py"
                                  (Some ["sub-02"; "sub-03"]) (Some ["ses-1"]) s).2 →
              k = kept)
  ∧ after_subject `sublist_of` S
  ∧ kept `sublist_of` after_subject
  ∧ kept `sublist_of` S
  ∧ (∀ a, count_occ (decide_rel (=)) kept a ≤ count_occ (decide_rel (=)) after_subject a
          ∧ count_occ (decide_rel (=)) after_subject a ≤ count_occ (decide_rel (=)) S a)
  ∧ length kept ≤ length S.
Proof.
  intros s S.
  exact (filters_keep_a_subsequence Demo.services Demo.fw "StudyA" "plain.py"
           (Some ["sub-02"; "sub-03"]) (Some ["ses-1"]) s Demo.study_a S
           (world s) (world s) eq_refl eq_refl).
Defined.

(** ** The command line *)

Section CommandLine.
Context {World : Type} (ext : Collaborators World).
Implicit Types (s : State World).

Lemma string_app_empty_r (x : string) : x +:+ "" = x.
Proof.
  induction x as [|c x IH]; [done|].
  change (String c (x +:+ "") = String c x). by rewrite IH.
Qed.

(** The joined string is the first part followed by every other part,
    each behind one separator. *)
Lemma join_cons sep p ps :
  join sep (p :: ps) = p +:+ foldr (λ x acc, sep +:+ x +:+ acc) "" ps.
Proof.
  revert p. induction ps as [|q ps IH]; intros p.
  - simpl. by rewrite string_app_empty_r.
  - change (join sep (p :: q :: ps)) with (p +:+ sep +:+ join sep (q :: ps)).
    by rewrite IH.
Qed.

(** Lines 42-65 look the project up once, first of all. *)
Lemma classify_find_first client label path sub ses s r s1 :
  classify ext client label path sub ses s = (r, s1) →
  ∃ evs, trace s1 = trace s ++ [EvLog INFO "Querying Flywheel server...";
                                EvFindFirst client (label_query label)] ++ evs
         ∧ Forall (λ ev, is_find_first ev = false) evs.
Proof.
  unfold classify, mbind, M_bind, bind, call, log, ret, raise. simpl. intros Hrun.
  destruct (find_first _ _ _ _) as [[[p|]|e1] w1];
    [|inversion Hrun; subst; simpl; rewrite <- ?app_assoc; simpl;
      eexists; split; [done | by repeat constructor]..].
  destruct (get_project_sessions _ _ _ _) as [[S|e2] w2];
    [|inversion Hrun; subst; simpl; rewrite <- ?app_assoc; simpl;
      eexists; split; [done | by repeat constructor]].
  destruct (get_seq_info _ _ _ _ _) as [[seqs|e3] w3];
    [|inversion Hrun; subst; simpl; rewrite <- ?app_assoc; simpl;
      eexists; split; [done | by repeat constructor]].
  destruct (load_heuristic _ _ _) as [[h'|e4] w4];
    [|inversion Hrun; subst; simpl; rewrite <- ?app_assoc; simpl;
      eexists; split; [done | by repeat constructor]].
  destruct (infotodict _ _ _) as [[tr'|e5] w5];
    inversion Hrun; subst; simpl; rewrite <- ?app_assoc; simpl;
      eexists; (split; [done | by repeat constructor]).
Qed.

Lemma convert_to_bids_find_first client label path sub ses dry_run s r s' :
  convert_to_bids ext client label path sub ses dry_run s = (r, s') →
  ∃ evs, trace s' = trace s ++ [EvLog INFO "Querying Flywheel server...";
                                EvFindFirst client (label_query label)] ++ evs
         ∧ Forall (λ ev, is_find_first ev = false) evs.
Proof.
  intros Hrun.
  destruct (convert_to_bids_run ext _ _ _ _ _ _ _ _ _ Hrun)
    as [(e & Hc & _)|(h & tr & s1 & n & Hc & _ & Htr & _)].
  - by apply classify_find_first in Hc.
  - apply classify_find_first in Hc as (evs & Hevs & Hall).
    exists (evs ++ curate_logs h dry_run ++ (planned_call client dry_run h <$> take n tr)).
    split; [by rewrite Htr, Hevs, <- !app_assoc|].
    apply Forall_app. split; [done|]. apply Forall_app. split.
    + unfold curate_logs. destruct dry_run, (IntendedFor h); by repeat constructor.
    + apply Forall_fmap, Forall_forall. by intros it _.
Qed.

(** Lines 42-45 once the project is found: the session query is made for
    its identifier. *)
Lemma convert_to_bids_asks_sessions client label path sub ses dry_run s p w1 r s' :
  find_first ext client (label_query label) (world s) = (Returns (Some p), w1) →
  convert_to_bids ext client label path sub ses dry_run s = (r, s') →
  ∃ evs, trace s' = trace s
                    ++ [EvLog INFO "Querying Flywheel server...";
                        EvFindFirst client (label_query label);
                        EvLog DEBUG "Found project: %s (%s)";
                        EvGetProjectSessions client (project_id p)] ++ evs.
Proof.
  intros Hfind Hrun.
  assert (∀ r1 s1, classify ext client label path sub ses s = (r1, s1) →
            ∃ evs, trace s1 = trace s
                     ++ [EvLog INFO "Querying Flywheel server...";
                         EvFindFirst client (label_query label);
                         EvLog DEBUG "Found project: %s (%s)";
                         EvGetProjectSessions client (project_id p)] ++ evs) as Hshape.
  { intros r1 s1. unfold classify, mbind, M_bind, bind, call, log, ret, raise. simpl.
    rewrite Hfind. simpl. intros Hc.
    destruct (get_project_sessions _ _ _ _) as [[S|e2] w2];
      [|inversion Hc; subst; simpl; rewrite <- ?app_assoc; simpl; by eexists].
    destruct (get_seq_info _ _ _ _ _) as [[seqs|e3] w3];
      [|inversion Hc; subst; simpl; rewrite <- ?app_assoc; simpl; by eexists].
    destruct (load_heuristic _ _ _) as [[h'|e4] w4];
      [|inversion Hc; subst; simpl; rewrite <- ?app_assoc; simpl; by eexists].
    destruct (infotodict _ _ _) as [[tr'|e5] w5];
      inversion Hc; subst; simpl; rewrite <- ?app_assoc; simpl; by eexists. }
  destruct (convert_to_bids_run ext _ _ _ _ _ _ _ _ _ Hrun)
    as [(e & Hc & _)|(h & tr & s1 & n & Hc & _ & Htr & _)];
    apply Hshape in Hc as (evs & Hevs).
  - by exists evs.
  - rewrite Hevs, <- !app_assoc in Htr. by eexists.
Qed.

(** C8: the parser declares [--project] as a required option taking one
    or more values, and [main] joins the values it was given with single
    spaces into the one label with which it runs [convert_to_bids].  The
    project query of the run is [label="..."] around that label, written
    out here character by character; it is the only project query, and it
    is the query [find_first] is really invoked with, on the world the
    parsing left: if that invocation raises, [main] ends with its
    exception in the world it left, and if it returns a project, the
    sessions of that project are asked for. *)
Theorem main_joins_project_labels s fw w1 args w2 :
  flywheel_Client ext (world s) = (Returns fw, w1) →
  parse_args ext get_parser w1 = (Returns args, w2) →
  let project_label := join " " (args_project args) in
  let query :=
    "label=" +:+ String "034"%char (project_label +:+ String "034"%char EmptyString) in
  let parsed :=
    {| world := w2;
       trace := trace s ++ [EvNewClient; EvParseArgs get_parser]
                  ++ (if args_verbose args then [EvSetLevel DEBUG] else []) |} in
  (∃ a, a ∈ arguments get_parser ∧ arg_name a = "--project"
        ∧ arg_nargs a = OneOrMore ∧ arg_required a = true)
  ∧ (∀ p ps, args_project args = p :: ps →
             project_label = p +:+ foldr (λ x acc, " " +:+ x +:+ acc) "" ps)
  ∧ main ext s
    = convert_to_bids ext fw project_label (args_heuristic args)
        (args_subject args) (args_session args) (args_dry_run args) parsed
  ∧ EvFindFirst fw query ∈ new_events s (main ext s).2
  ∧ (∀ c q, EvFindFirst c q ∈ new_events s (main ext s).2 → c = fw ∧ q = query)
  ∧ (∀ e w3, find_first ext fw query w2 = (Raises e, w3) →
       main ext s
       = (Raises e,
          {| world := w3;
             trace := trace parsed ++ [EvLog INFO "Querying Flywheel server...";
                                       EvFindFirst fw query] |}))
  ∧ (∀ p w3, find_first ext fw query w2 = (Returns (Some p), w3) →
       EvGetProjectSessions fw (project_id p) ∈ new_events s (main ext s).2).
Proof.
  intros Hclient Hargs project_label query parsed.
  assert (query = label_query project_label) as Hquery by reflexivity.
  assert (main ext s
          = convert_to_bids ext fw project_label (args_heuristic args)
              (args_subject args) (args_session args) (args_dry_run args) parsed)
    as Hmain.
  { unfold main, mbind, M_bind, bind, call, set_level, ret. rewrite Hclient. simpl.
    rewrite Hargs. unfold parsed.
    destruct (args_verbose args); simpl; by rewrite <- !app_assoc. }
  destruct (main ext s) as [r s'] eqn:Hrun. symmetry in Hmain.
  pose proof Hmain as Hconv.
  apply convert_to_bids_find_first in Hmain as (evs & Htr & Hall). simpl in Htr.
  assert (new_events s s'
          = ([EvNewClient; EvParseArgs get_parser]
               ++ (if args_verbose args then [EvSetLevel DEBUG] else []))
            ++ [EvLog INFO "Querying Flywheel server...";
                EvFindFirst fw (label_query project_label)] ++ evs) as Hev.
  { apply new_events_app. by rewrite Htr, <- !app_assoc. }
  rewrite Hquery. split_and!.
  - eexists. split; [by left|]. done.
  - intros p ps Hps. unfold project_label. rewrite Hps. apply join_cons.
  - done.
  - simpl. rewrite Hev. apply elem_of_app. right. by right; left.
  - simpl. rewrite Hev. intros c q Hin.
    apply elem_of_app in Hin as [Hin|Hin].
    { destruct (args_verbose args); simpl in Hin;
        repeat (apply elem_of_cons in Hin as [Hin|Hin]; [discriminate|]);
        by apply elem_of_nil in Hin. }
    apply elem_of_cons in Hin as [Hin|Hin]; [discriminate|].
    apply elem_of_cons in Hin as [Hin|Hin]; [by inversion Hin|].
    by pose proof (proj1 (Forall_forall _ _) Hall _ Hin).
  - intros e w3 Hfind. rewrite <- Hconv.
    unfold convert_to_bids, classify, mbind, M_bind, bind, call, log, ret, raise.
    simpl. rewrite Hfind. simpl. by rewrite <- !app_assoc.
  - intros p w3 Hfind. simpl.
    destruct (convert_to_bids_asks_sessions _ _ _ _ _ _ parsed p w3 _ _ Hfind Hconv)
      as (more & Hmore). simpl in Hmore.
    rewrite <- !app_assoc in Hmore. rewrite (new_events_app _ _ _ Hmore).
    apply elem_of_app. right. do 3 right. left.
Qed.

End CommandLine.

Lemma main_joins_project_labels_witness :
  let s := Demo.fresh [] in
  let query := "label=" +:+ String "034"%char ("Study A pilot" +:+ String "034"%char "") in
  EvFindFirst Demo.fw query ∈ new_events s (main Demo.services s).2
  ∧ (∀ c q, EvFindFirst c q ∈ new_events s (main Demo.services s).2 →
            c = Demo.fw ∧ q = query)
  ∧ (∀ e w3, find_first Demo.services Demo.fw query (world s) = (Raises e, w3) →
       main Demo.services s
       = (Raises e,
          {| world := w3;
             trace := (trace s ++ [EvNewClient; EvParseArgs get_parser] ++ [])
                        ++ [EvLog INFO "Querying Flywheel server...";
                            EvFindFirst Demo.fw query] |}))
  ∧ (∀ p w3, find_first Demo.services Demo.fw query (world s) = (Returns (Some p), w3) →
       EvGetProjectSessions Demo.fw (project_id p) ∈ new_events s (main Demo.services s).2)
  ∧ EvGetProjectSessions Demo.fw "p1"
      ∈ new_events s (main (Faulty.services Faulty.Nowhere true) s).2.
Proof.
  intros s query.
  pose proof (proj2 (proj2 (proj2
    (main_joins_project_labels Demo.services s Demo.fw (world s)
       {| args_project := ["Study"; "A"; "pilot"]; args_heuristic := "plain.py";
          args_subject := None; args_session := None;
          args_verbose := false; args_dry_run := true |}
       (world s) eq_refl eq_refl)))) as (H1 & H2 & H3 & H4).
  do 4 (split; [done|]).
  exact (proj2 (proj2 (proj2 (proj2 (proj2 (proj2
    (main_joins_project_labels (Faulty.services Faulty.Nowhere true) s Demo.fw (world s)
       {| args_project := ["StudyA"]; args_heuristic := "plain.py";
          args_subject := None; args_session := None;
          args_verbose := true; args_dry_run := false |}
       (world s) eq_refl eq_refl))))))
    Demo.study_a (world s) eq_refl).
Defined.


(** * Further properties of the code *)

(** ** More on the session filters (lines 47-50) *)

Lemma filter_by_subject_set (F1 F2 : list string) (S : list Session) :
  (∀ x, x ∈ F1 ↔ x ∈ F2) →
  filter_by_subject (Some F1) S = filter_by_subject (Some F2) S.
Proof.
  intros Hset. destruct F1 as [|a F1], F2 as [|b F2]; [done|..].
  - exfalso. apply (elem_of_nil b), Hset. by left.
  - exfalso. apply (elem_of_nil a), Hset. by left.
  - unfold filter_by_subject, keep_subjects. simpl.
    apply list_filter_iff. intros s. rewrite !py_in_true. apply Hset.
Qed.

Lemma filter_by_session_set (F1 F2 : list string) (S : list Session) :
  (∀ x, x ∈ F1 ↔ x ∈ F2) →
  filter_by_session (Some F1) S = filter_by_session (Some F2) S.
Proof.
  intros Hset. destruct F1 as [|a F1], F2 as [|b F2]; [done|..].
  - exfalso. apply (elem_of_nil b), Hset. by left.
  - exfalso. apply (elem_of_nil a), Hset. by left.
  - unfold filter_by_session, keep_sessions. simpl.
    apply list_filter_iff. intros s. rewrite !py_in_true. apply Hset.
Qed.

(** X1: the session-label filter of lines 49-50 keeps exactly the sessions
    whose own label is one of the labels supplied, in the order and number
    in which it received them; with [None] or with an empty list of labels
    it keeps every session. *)
Theorem session_filter_exact (S : list Session) :
  (∀ F : list string, F ≠ [] →
     filter_by_session (Some F) S = filter (λ s, session_label s ∈ F) S
     ∧ ∀ s, s ∈ filter_by_session (Some F) S ↔ s ∈ S ∧ session_label s ∈ F)
  ∧ filter_by_session None S = S
  ∧ filter_by_session (Some []) S = S.
Proof.
  split; [|done].
  intros F HF. destruct F as [|l F]; [done|]. split.
  - unfold filter_by_session, keep_sessions. simpl.
    apply list_filter_iff. intros s. apply py_in_true.
  - intros s. rewrite filter_by_session_elem. simpl. tauto.
Qed.

Lemma session_filter_exact_witness :
  filter_by_session (Some ["ses-2"]) [Demo.ses_sub01; Demo.ses_sub02] = [].
Proof.
  destruct (session_filter_exact [Demo.ses_sub01; Demo.ses_sub02]) as [H _].
  destruct (H ["ses-2"]) as [-> _]; [discriminate|]. reflexivity.
Defined.

(** X2: what the filters keep depends on the labels as a set only: the
    order of the labels on the command line and repeated labels make no
    difference. *)
Theorem filters_depend_on_label_set (Fsub1 Fsub2 Fses1 Fses2 : list string)
    (S : list Session) :
  (∀ x, x ∈ Fsub1 ↔ x ∈ Fsub2) →
  (∀ x, x ∈ Fses1 ↔ x ∈ Fses2) →
  filter_sessions (Some Fsub1) (Some Fses1) S
  = filter_sessions (Some Fsub2) (Some Fses2) S.
Proof.
  intros Hsub Hses. unfold filter_sessions.
  rewrite (filter_by_subject_set Fsub1 Fsub2 S Hsub).
  apply filter_by_session_set, Hses.
Qed.

Lemma filters_depend_on_label_set_witness :
  filter_sessions (Some ["sub-02"; "sub-01"; "sub-02"]) (Some ["ses-1"])
    [Demo.ses_sub01; Demo.ses_sub02]
  = filter_sessions (Some ["sub-01"; "sub-02"]) (Some ["ses-1"; "ses-1"])
      [Demo.ses_sub01; Demo.ses_sub02].
Proof.
  apply filters_depend_on_label_set; intros x; rewrite !elem_of_cons; tauto.
Defined.

(** X3: filtering is idempotent: sessions that went through lines 47-50
    are all kept when the same filters are applied to them again. *)
Theorem filter_sessions_idempotent (Fsub Fses : option (list string))
    (S : list Session) :
  filter_sessions Fsub Fses (filter_sessions Fsub Fses S)
  = filter_sessions Fsub Fses S.
Proof.
  unfold filter_sessions, filter_by_session, filter_by_subject,
    keep_sessions, keep_subjects.
  destruct (truthy Fses), (truthy Fsub); try done;
    rewrite !list_filter_filter; apply list_filter_iff; tauto.
Qed.

(** X4: the filters treat every session on its own: filtering a
    concatenation of two session lists gives the concatenation of the two
    filtered lists. *)
Theorem filter_sessions_app (Fsub Fses : option (list string))
    (S1 S2 : list Session) :
  filter_sessions Fsub Fses (S1 ++ S2)
  = filter_sessions Fsub Fses S1 ++ filter_sessions Fsub Fses S2.
Proof.
  unfold filter_sessions, filter_by_session, filter_by_subject,
    keep_sessions, keep_subjects.
  destruct (truthy Fses), (truthy Fsub); by rewrite ?filter_app.
Qed.

(** X5: with non-empty label lists, giving more labels never loses a
    session: what the smaller lists keep is a subsequence of what the
    larger lists keep.  (The empty list is excluded: it switches the filter
    off and keeps everything.) *)
Theorem filter_sessions_monotone (Fsub Fsub' Fses Fses' : list string)
    (S : list Session) :
  Fsub ≠ [] → Fses ≠ [] →
  (∀ x, x ∈ Fsub → x ∈ Fsub') →
  (∀ x, x ∈ Fses → x ∈ Fses') →
  filter_sessions (Some Fsub) (Some Fses) S
    `sublist_of` filter_sessions (Some Fsub') (Some Fses') S.
Proof.
  intros Hsub Hses Hsubs Hsess.
  destruct Fsub as [|a Fsub]; [done|]. destruct Fses as [|b Fses]; [done|].
  destruct Fsub' as [|a' Fsub'].
  { exfalso. apply (elem_of_nil a), Hsubs. by left. }
  destruct Fses' as [|b' Fses'].
  { exfalso. apply (elem_of_nil b), Hsess. by left. }
  unfold filter_sessions, filter_by_session, filter_by_subject,
    keep_sessions, keep_subjects. simpl.
  rewrite !list_filter_filter.
  erewrite <- (list_filter_filter_l _
     (λ s, py_in (session_label s) (b' :: Fses') = true
           ∧ py_in (subject_label (session_subject s)) (a' :: Fsub') = true)).
  - apply sublist_filter.
  - intros s. rewrite !py_in_true. intros [? ?]. auto.
Qed.

Lemma filter_sessions_monotone_witness :
  filter_sessions (Some ["sub-02"]) (Some ["ses-1"]) [Demo.ses_sub01; Demo.ses_sub02]
    `sublist_of` filter_sessions (Some ["sub-01"; "sub-02"]) (Some ["ses-1"; "ses-2"])
                   [Demo.ses_sub01; Demo.ses_sub02].
Proof.
  apply filter_sessions_monotone; try discriminate;
    intros x Hx; apply elem_of_cons in Hx as [->|Hx];
    try (by apply elem_of_nil in Hx); rewrite !elem_of_cons; tauto.
Defined.

(** ** More on the runs of [convert_to_bids] *)

Section MoreRuns.
Context {World : Type} (ext : Collaborators World).
Implicit Types (s : State World) (h : Heuristic World).

Ltac run_through :=
  unfold convert_to_bids, classify, mbind, M_bind, bind, call, log, ret, raise;
  simpl.

(** X6: sessions that all fall to the filters are no error: the sequence
    infos are then asked for the empty list of sessions, and when that query
    returns the run goes on to load the heuristic. *)
Theorem empty_selection_is_not_an_error client label path sub ses s p S w1 w2 o w3 :
  find_first ext client (label_query label) (world s) = (Returns (Some p), w1) →
  get_project_sessions ext client (project_id p) w1 = (Returns S, w2) →
  filter_sessions sub ses S = [] →
  get_seq_info ext client label [] w2 = (o, w3) →
  let evs := new_events s (classify ext client label path sub ses s).2 in
  EvGetSeqInfo client label [] ∈ evs
  ∧ (∀ seq_infos, o = Returns seq_infos → EvLoadHeuristic path ∈ evs)
  ∧ (∀ e, o = Raises e → (classify ext client label path sub ses s).1 = Raises e).
Proof.
  intros Hfind Hsessions Hempty Hseq evs. unfold evs. clear evs.
  unfold classify, mbind, M_bind, bind, call, log, ret, raise. simpl.
  rewrite Hfind. simpl. rewrite Hsessions. simpl. rewrite Hempty, Hseq.
  destruct o as [seqs|e]; simpl.
  - destruct (load_heuristic _ _ _) as [[h|e4] w4];
      [destruct (infotodict _ _ _) as [[tr|e5] w5]|];
      simpl; unfold new_events; simpl; rewrite <- !app_assoc, drop_app_length;
      simpl; (split; [do 5 right; left|]); (split; [|done]);
      intros _ _; do 8 right; left.
  - unfold new_events. simpl. rewrite <- !app_assoc, drop_app_length. simpl.
    split; [do 5 right; left|]. split; [done|]. by intros ? [= ->].
Qed.

(** X7: a run that returns has made exactly these calls, in this order:
    the project lookup for the label, the session query for the identifier
    of the project found, the sequence-info query for the filtered sessions,
    the load of the heuristic, its classification of the sequence infos
    received, and then the apply calls, one invocation of [apply_heuristic]
    per item of the classification; each collaborator, the apply layer at
    every item included, was given the world its predecessor left, and the
    final world is the one the last apply call left. *)
Theorem returning_run_trace client label path sub ses dry_run s s' :
  convert_to_bids ext client label path sub ses dry_run s = (Returns tt, s') →
  ∃ p S seq_infos h tr w1 w2 w3 w4 w5,
    find_first ext client (label_query label) (world s) = (Returns (Some p), w1)
    ∧ get_project_sessions ext client (project_id p) w1 = (Returns S, w2)
    ∧ get_seq_info ext client label (filter_sessions sub ses S) w2
      = (Returns seq_infos, w3)
    ∧ load_heuristic ext path w3 = (Returns h, w4)
    ∧ infotodict h seq_infos w4 = (Returns tr, w5)
    ∧ apply_in_order ext client dry_run (intentions_for h) w5 tr (Returns tt) (world s')
    ∧ new_events s s'
      = classify_events client label path p (filter_sessions sub ses S) seq_infos
        ++ curate_logs h dry_run
        ++ (planned_call client dry_run h <$> tr).
Proof.
  intros Hrun.
  destruct (convert_to_bids_run ext _ _ _ _ _ _ _ _ _ Hrun)
    as [(e & _ & ?)|(h & tr & s1 & n & Hc & _ & Htr & Hok)]; [done|].
  rewrite (Hok eq_refl), firstn_all in Htr.
  pose proof (classified_run_in_order ext _ _ _ _ _ _ _ _ _ _ _ _ Hc Hrun) as Hinvoked.
  apply classify_returns in Hc
    as (p & S & seqs & w1 & w2 & w3 & w4 & H1 & H2 & H3 & H4 & H5 & Hevs).
  exists p, S, seqs, h, tr, w1, w2, w3, w4, (world s1).
  do 5 (split; [done|]). split; [done|].
  apply new_events_app. by rewrite Htr, Hevs, <- !app_assoc.
Qed.

(** X8: when the session query raises, the run ends with that exception
    right after it: no sequence infos are asked for, no heuristic is loaded
    and nothing is applied. *)
Theorem sessions_query_failure client label path sub ses dry_run s p w1 e w2 :
  find_first ext client (label_query label) (world s) = (Returns (Some p), w1) →
  get_project_sessions ext client (project_id p) w1 = (Raises e, w2) →
  convert_to_bids ext client label path sub ses dry_run s
  = (Raises e,
     {| world := w2;
        trace := trace s ++ [ EvLog INFO "Querying Flywheel server...";
                              EvFindFirst client (label_query label);
                              EvLog DEBUG "Found project: %s (%s)";
                              EvGetProjectSessions client (project_id p) ] |}).
Proof.
  intros H1 H2. run_through. rewrite H1. simpl. rewrite H2.
  by rewrite <- !app_assoc.
Qed.

(** X9: when the sequence-info query raises, the run ends with that
    exception right after it; the heuristic is not loaded. *)
Theorem seq_info_failure client label path sub ses dry_run s p w1 S w2 e w3 :
  find_first ext client (label_query label) (world s) = (Returns (Some p), w1) →
  get_project_sessions ext client (project_id p) w1 = (Returns S, w2) →
  get_seq_info ext client label (filter_sessions sub ses S) w2 = (Raises e, w3) →
  convert_to_bids ext client label path sub ses dry_run s
  = (Raises e,
     {| world := w3;
        trace := trace s ++ [ EvLog INFO "Querying Flywheel server...";
                              EvFindFirst client (label_query label);
                              EvLog DEBUG "Found project: %s (%s)";
                              EvGetProjectSessions client (project_id p);
                              EvLog DEBUG ("Found sessions:" +:+ newline +:+ tab +:+ "%s");
                              EvGetSeqInfo client label (filter_sessions sub ses S)
                            ] |}).
Proof.
  intros H1 H2 H3. run_through. rewrite H1. simpl. rewrite H2. simpl. rewrite H3.
  by rewrite <- !app_assoc.
Qed.

(** X10: the heuristic is loaded only after the three remote reads: when
    the load raises (a path that is no heuristic, say), the project lookup,
    the session query and the sequence-info query have all been made; the
    run ends with the loader's exception, without classification and
    without any apply call. *)
Theorem heuristic_load_failure client label path sub ses dry_run s
    p w1 S w2 seq_infos w3 e w4 :
  find_first ext client (label_query label) (world s) = (Returns (Some p), w1) →
  get_project_sessions ext client (project_id p) w1 = (Returns S, w2) →
  get_seq_info ext client label (filter_sessions sub ses S) w2
    = (Returns seq_infos, w3) →
  load_heuristic ext path w3 = (Raises e, w4) →
  ∃ s', convert_to_bids ext client label path sub ses dry_run s = (Raises e, s')
        ∧ world s' = w4
        ∧ new_events s s'
          = take 9 (classify_events client label path p
                      (filter_sessions sub ses S) seq_infos)
        ∧ filter (λ ev, is_infotodict ev = true) (new_events s s') = []
        ∧ apply_calls (new_events s s') = [].
Proof.
  intros H1 H2 H3 H4. run_through. rewrite H1. simpl. rewrite H2. simpl.
  rewrite H3. simpl. rewrite H4. eexists. split; [done|]. split; [done|].
  unfold new_events. simpl. rewrite <- !app_assoc, drop_app_length. done.
Qed.

(** X11: when the classification function of the heuristic raises, the run
    ends with that exception, in the world the function left, and the apply
    layer is never called. *)
Theorem classification_failure client label path sub ses dry_run s
    p w1 S w2 seq_infos w3 h w4 e w5 :
  find_first ext client (label_query label) (world s) = (Returns (Some p), w1) →
  get_project_sessions ext client (project_id p) w1 = (Returns S, w2) →
  get_seq_info ext client label (filter_sessions sub ses S) w2
    = (Returns seq_infos, w3) →
  load_heuristic ext path w3 = (Returns h, w4) →
  infotodict h seq_infos w4 = (Raises e, w5) →
  ∃ s', convert_to_bids ext client label path sub ses dry_run s = (Raises e, s')
        ∧ world s' = w5
        ∧ new_events s s'
          = classify_events client label path p (filter_sessions sub ses S) seq_infos
        ∧ apply_calls (new_events s s') = [].
Proof.
  intros H1 H2 H3 H4 H5. run_through. rewrite H1. simpl. rewrite H2. simpl.
  rewrite H3. simpl. rewrite H4. simpl. rewrite H5.
  eexists. split; [done|]. split; [done|].
  unfold new_events. simpl. rewrite <- !app_assoc, drop_app_length. done.
Qed.

Lemma apply_each_returns client dry_run (items : ToRename) m s :
  (∀ k v i w, ∃ w', apply_heuristic ext client k v dry_run i w = (Returns tt, w')) →
  ∃ s', apply_each ext client dry_run items m s = (Returns tt, s').
Proof.
  intros Hok. revert s. induction items as [|[key val] rest IH]; intros s.
  - by eexists.
  - rewrite apply_each_cons.
    destruct (Hok key val (default [] (m !! key)) (world s)) as [w' ->]. apply IH.
Qed.

(** X12: when the classification has been obtained and the apply layer
    does not raise, the run returns: nothing in lines 67-77 can fail on its
    own, whatever the keys and whether or not they have intentions. *)
Theorem run_returns_when_apply_does client label path sub ses dry_run s h tr s1 :
  classify ext client label path sub ses s = (Returns (h, tr), s1) →
  (∀ k v i w, ∃ w', apply_heuristic ext client k v dry_run i w = (Returns tt, w')) →
  ∃ s', convert_to_bids ext client label path sub ses dry_run s = (Returns tt, s')
        ∧ apply_calls (new_events s s') = planned_call client dry_run h <$> tr.
Proof.
  intros Hc Hok.
  destruct (convert_to_bids ext client label path sub ses dry_run s) as [r s'] eqn:Hrun.
  assert (r = Returns tt) as ->.
  { rewrite (convert_to_bids_classified ext _ _ _ _ _ _ _ _ _ _ Hc) in Hrun.
    rewrite curate_unfold in Hrun.
    destruct (apply_each_returns client dry_run tr (initial_intention_map h)
                (record s1 (curate_logs h dry_run)) Hok) as [s'' Hs''].
    rewrite Hs'' in Hrun. by inversion Hrun. }
  exists s'. split; [done|].
  destruct (classified_run_events ext _ _ _ _ _ _ _ _ _ _ _ _ Hc Hrun)
    as (n & _ & Hcalls & Hn).
  by rewrite Hcalls, (Hn eq_refl), firstn_all.
Qed.

(** X13: a heuristic that matches nothing is no error: with an empty
    classification the run returns without any apply call, in the world the
    classification left, having logged the records of lines 67-74 only. *)
Theorem empty_classification client label path sub ses dry_run s h s1 :
  classify ext client label path sub ses s = (Returns (h, []), s1) →
  convert_to_bids ext client label path sub ses dry_run s
    = (Returns tt, record s1 (curate_logs h dry_run))
  ∧ apply_calls (new_events s (record s1 (curate_logs h dry_run))) = [].
Proof.
  intros Hc. split.
  - rewrite (convert_to_bids_classified ext _ _ _ _ _ _ _ _ _ _ Hc).
    by rewrite curate_unfold.
  - apply classify_events_shape in Hc as (evs & Hevs & Hnone & _).
    rewrite (new_events_app s _ (evs ++ curate_logs h dry_run))
      by (simpl; by rewrite Hevs, <- app_assoc).
    by rewrite apply_calls_app, Hnone, apply_calls_curate_logs.
Qed.

Lemma apply_each_dry_world client (items : ToRename) m s :
  (∀ k v i w, (apply_heuristic ext client k v true i w).2 = w) →
  world (apply_each ext client true items m s).2 = world s.
Proof.
  intros Hdry. revert s. induction items as [|[key val] rest IH]; intros s; [done|].
  rewrite apply_each_cons.
  pose proof (Hdry key val (default [] (m !! key)) (world s)) as Hw.
  destruct (apply_heuristic _ _ _ _ _ _ _) as [[[]|e] w]; simpl in Hw; subst w.
  - by rewrite IH.
  - done.
Qed.

(** X14: the orchestrator writes nothing by itself: if the apply layer
    leaves the world alone whenever it is called with the dry-run flag on,
    then a dry run ends in the world in which lines 42-65 (the reads and
    the classification) left it, whether it returns or raises. *)
Theorem dry_run_changes_nothing client label path sub ses s :
  (∀ k v i w, (apply_heuristic ext client k v true i w).2 = w) →
  world (convert_to_bids ext client label path sub ses true s).2
  = world (classify ext client label path sub ses s).2.
Proof.
  intros Hdry. unfold convert_to_bids, mbind, M_bind, bind.
  destruct (classify ext client label path sub ses s) as [[[h tr]|e] s1]; [|done].
  rewrite curate_unfold. simpl. by rewrite apply_each_dry_world.
Qed.

(** X15: nothing is applied before the classification is complete: the
    events of every run, returning or not, are a part without apply calls
    followed by apply calls only, and if there is any apply call then the
    first part contains the call of the classification function. *)
Theorem apply_calls_come_last client label path sub ses dry_run s r s' :
  convert_to_bids ext client label path sub ses dry_run s = (r, s') →
  ∃ before calls,
    new_events s s' = before ++ calls
    ∧ apply_calls before = []
    ∧ apply_calls calls = calls
    ∧ (calls ≠ [] → ∃ seq_infos, EvInfotodict seq_infos ∈ before).
Proof.
  intros Hrun.
  destruct (convert_to_bids_run ext _ _ _ _ _ _ _ _ _ Hrun)
    as [(e & Hc & _)|(h & tr & s1 & n & Hc & _ & Htr & _)].
  - apply classify_events_shape in Hc as (evs & Hevs & Hnone & _).
    exists evs, []. rewrite app_nil_r.
    split; [by apply new_events_app|]. split; [done|]. split; done.
  - apply classify_events_shape in Hc as (evs & Hevs & Hnone & seqs & Hone).
    exists (evs ++ curate_logs h dry_run), (planned_call client dry_run h <$> take n tr).
    split; [apply new_events_app; by rewrite Htr, Hevs, <- !app_assoc|].
    split; [by rewrite apply_calls_app, Hnone, apply_calls_curate_logs|].
    split; [apply apply_calls_planned|].
    intros _. exists seqs. apply elem_of_app. left.
    assert (EvInfotodict seqs ∈ filter (λ ev, is_infotodict ev = true) evs) as Hin
      by (rewrite Hone; by left).
    by apply list_elem_of_filter in Hin as [_ ?].
Qed.

End MoreRuns.

Lemma empty_selection_is_not_an_error_witness :
  let s := Demo.fresh [] in
  let evs := new_events s (classify Demo.services Demo.fw "StudyA" "plain.py"
                             (Some ["sub-09"]) None s).2 in
  EvGetSeqInfo Demo.fw "StudyA" [] ∈ evs
  ∧ (∀ seq_infos : list SeqInfo,
       Returns [] = Returns seq_infos → EvLoadHeuristic "plain.py" ∈ evs)
  ∧ (∀ e, Returns ([] : list SeqInfo) = Raises e →
          (classify Demo.services Demo.fw "StudyA" "plain.py"
             (Some ["sub-09"]) None s).1 = Raises e).
Proof.
  intros s.
  exact (empty_selection_is_not_an_error Demo.services Demo.fw "StudyA" "plain.py"
           (Some ["sub-09"]) None s Demo.study_a [Demo.ses_sub01; Demo.ses_sub02]
           (world s) (world s) (Returns []) (world s)
           eq_refl eq_refl eq_refl eq_refl).
Defined.

Lemma returning_run_trace_witness :
  let s := Demo.fresh [] in
  let s' := (convert_to_bids Demo.services Demo.fw "StudyA" "intended.py"
               (Some ["sub-01"]) None false s).2 in
  ∃ p S seq_infos h tr w1 w2 w3 w4 w5,
    find_first Demo.services Demo.fw (label_query "StudyA") (world s)
      = (Returns (Some p), w1)
    ∧ get_project_sessions Demo.services Demo.fw (project_id p) w1 = (Returns S, w2)
    ∧ get_seq_info Demo.services Demo.fw "StudyA"
        (filter_sessions (Some ["sub-01"]) None S) w2 = (Returns seq_infos, w3)
    ∧ load_heuristic Demo.services "intended.py" w3 = (Returns h, w4)
    ∧ infotodict h seq_infos w4 = (Returns tr, w5)
    ∧ apply_in_order Demo.services Demo.fw false (intentions_for h) w5 tr
        (Returns tt) (world s')
    ∧ new_events s s'
      = classify_events Demo.fw "StudyA" "intended.py" p
          (filter_sessions (Some ["sub-01"]) None S) seq_infos
        ++ curate_logs h false
        ++ (planned_call Demo.fw false h <$> tr).
Proof.
  intros s s'.
  exact (returning_run_trace Demo.services Demo.fw "StudyA" "intended.py"
           (Some ["sub-01"]) None false s s' eq_refl).
Defined.

Lemma sessions_query_failure_witness :
  let s := Demo.fresh [] in
  convert_to_bids (Faulty.services Faulty.AtSessions false) Demo.fw "StudyA" "plain.py"
    None None false s
  = (Raises Faulty.outage,
     {| world := world s;
        trace := trace s ++ [ EvLog INFO "Querying Flywheel server...";
                              EvFindFirst Demo.fw (label_query "StudyA");
                              EvLog DEBUG "Found project: %s (%s)";
                              EvGetProjectSessions Demo.fw (project_id Demo.study_a) ] |}).
Proof.
  intros s.
  exact (sessions_query_failure (Faulty.services Faulty.AtSessions false) Demo.fw
           "StudyA" "plain.py" None None false s Demo.study_a (world s)
           Faulty.outage (world s) eq_refl eq_refl).
Defined.

Lemma seq_info_failure_witness :
  let s := Demo.fresh [] in
  (convert_to_bids (Faulty.services Faulty.AtSeqInfo false) Demo.fw "StudyA" "plain.py"
     None (Some ["ses-1"]) false s).1
  = Raises Faulty.outage.
Proof.
  intros s.
  exact (f_equal fst
           (seq_info_failure (Faulty.services Faulty.AtSeqInfo false) Demo.fw
              "StudyA" "plain.py" None (Some ["ses-1"]) false s Demo.study_a (world s)
              [Demo.ses_sub01; Demo.ses_sub02] (world s) Faulty.outage (world s)
              eq_refl eq_refl eq_refl)).
Defined.

Lemma heuristic_load_failure_witness :
  let s := Demo.fresh [] in
  ∃ s', convert_to_bids Demo.services Demo.fw "StudyA" "missing.py" None None false s
        = (Raises (Exc "ImportError" "missing.py"), s')
        ∧ world s' = world s
        ∧ new_events s s'
          = take 9 (classify_events Demo.fw "StudyA" "missing.py" Demo.study_a
                      (filter_sessions None None [Demo.ses_sub01; Demo.ses_sub02])
                      (Demo.seq_of <$> [Demo.ses_sub01; Demo.ses_sub02]))
        ∧ filter (λ ev, is_infotodict ev = true) (new_events s s') = []
        ∧ apply_calls (new_events s s') = [].
Proof.
  intros s.
  exact (heuristic_load_failure Demo.services Demo.fw "StudyA" "missing.py" None None
           false s Demo.study_a (world s) [Demo.ses_sub01; Demo.ses_sub02] (world s)
           (Demo.seq_of <$> [Demo.ses_sub01; Demo.ses_sub02]) (world s)
           (Exc "ImportError" "missing.py") (world s)
           eq_refl eq_refl eq_refl eq_refl).
Defined.

Lemma classification_failure_witness :
  let s := Demo.fresh [] in
  ∃ s', convert_to_bids (Faulty.services Faulty.Nowhere false) Demo.fw "StudyA"
          "broken.py" None None false s
        = (Raises (Exc "KeyError" "protocol_name"), s')
        ∧ world s' = world s
        ∧ new_events s s'
          = classify_events Demo.fw "StudyA" "broken.py" Demo.study_a
              (filter_sessions None None [Demo.ses_sub01; Demo.ses_sub02])
              (Demo.seq_of <$> [Demo.ses_sub01; Demo.ses_sub02])
        ∧ apply_calls (new_events s s') = [].
Proof.
  intros s.
  exact (classification_failure (Faulty.services Faulty.Nowhere false) Demo.fw "StudyA"
           "broken.py" None None false s Demo.study_a (world s)
           [Demo.ses_sub01; Demo.ses_sub02] (world s)
           (Demo.seq_of <$> [Demo.ses_sub01; Demo.ses_sub02]) (world s)
           Faulty.broken (world s) (Exc "KeyError" "protocol_name") (world s)
           eq_refl eq_refl eq_refl eq_refl eq_refl).
Defined.

Lemma run_returns_when_apply_does_witness :
  let s := Demo.fresh ["key1"; "key2"] in
  ∃ s', convert_to_bids Demo.services Demo.fw "StudyA" "intended.py" None None true s
        = (Returns tt, s')
        ∧ apply_calls (new_events s s')
          = planned_call Demo.fw true Demo.with_intentions <$> Demo.classification.
Proof.
  intros s.
  apply (run_returns_when_apply_does Demo.services Demo.fw "StudyA" "intended.py"
           None None true s Demo.with_intentions Demo.classification
           (classify Demo.services Demo.fw "StudyA" "intended.py" None None s).2 eq_refl).
  intros k v i w. by exists w.
Defined.

Lemma empty_classification_witness :
  let s := Demo.fresh [] in
  let s1 := (classify (Faulty.services Faulty.Nowhere false) Demo.fw "StudyA" "empty.py"
               None None s).2 in
  convert_to_bids (Faulty.services Faulty.Nowhere false) Demo.fw "StudyA" "empty.py"
    None None false s
    = (Returns tt, record s1 (curate_logs Faulty.matches_nothing false))
  ∧ apply_calls (new_events s (record s1 (curate_logs Faulty.matches_nothing false))) = [].
Proof.
  intros s s1.
  exact (empty_classification (Faulty.services Faulty.Nowhere false) Demo.fw "StudyA"
           "empty.py" None None false s Faulty.matches_nothing s1 eq_refl).
Defined.

Lemma dry_run_changes_nothing_witness :
  let s := Demo.fresh ["key2"] in
  world (convert_to_bids Demo.services Demo.fw "StudyA" "plain.py" None None true s).2
  = world (classify Demo.services Demo.fw "StudyA" "plain.py" None None s).2.
Proof.
  intros s.
  apply (dry_run_changes_nothing Demo.services Demo.fw "StudyA" "plain.py" None None s).
  intros k v i w. reflexivity.
Defined.

Lemma apply_calls_come_last_witness :
  let s := Demo.fresh ["key1"] in
  let s' := (convert_to_bids Demo.services Demo.fw "StudyA" "plain.py"
               None None false s).2 in
  ∃ before calls,
    new_events s s' = before ++ calls
    ∧ apply_calls before = []
    ∧ apply_calls calls = calls
    ∧ (calls ≠ [] → ∃ seq_infos, EvInfotodict seq_infos ∈ before).
Proof.
  intros s s'.
  exact (apply_calls_come_last Demo.services Demo.fw "StudyA" "plain.py" None None
           false s (Raises (Exc "ApiException" "write rejected")) s' eq_refl).
Defined.

(** ** More on [main] and on the project label *)

Section MoreCommandLine.
Context {World : Type} (ext : Collaborators World).
Implicit Types (s : State World).

(** [convert_to_bids] never touches the level of the logger. *)
Lemma classify_no_set_level client label path sub ses s r s1 :
  classify ext client label path sub ses s = (r, s1) →
  ∃ evs, trace s1 = trace s ++ evs ∧ Forall (λ ev, is_set_level ev = false) evs.
Proof.
  unfold classify, mbind, M_bind, bind, call, log, ret, raise. simpl. intros Hrun.
  destruct (find_first _ _ _ _) as [[[p|]|e1] w1];
    [|inversion Hrun; subst; simpl; rewrite <- ?app_assoc; simpl;
      eexists; split; [done | by repeat constructor]..].
  destruct (get_project_sessions _ _ _ _) as [[S|e2] w2];
    [|inversion Hrun; subst; simpl; rewrite <- ?app_assoc; simpl;
      eexists; split; [done | by repeat constructor]].
  destruct (get_seq_info _ _ _ _ _) as [[seqs|e3] w3];
    [|inversion Hrun; subst; simpl; rewrite <- ?app_assoc; simpl;
      eexists; split; [done | by repeat constructor]].
  destruct (load_heuristic _ _ _) as [[h'|e4] w4];
    [|inversion Hrun; subst; simpl; rewrite <- ?app_assoc; simpl;
      eexists; split; [done | by repeat constructor]].
  destruct (infotodict _ _ _) as [[tr'|e5] w5];
    inversion Hrun; subst; simpl; rewrite <- ?app_assoc; simpl;
      eexists; (split; [done | by repeat constructor]).
Qed.

Lemma convert_to_bids_no_set_level client label path sub ses dry_run s r s' :
  convert_to_bids ext client label path sub ses dry_run s = (r, s') →
  ∃ evs, trace s' = trace s ++ evs ∧ Forall (λ ev, is_set_level ev = false) evs.
Proof.
  intros Hrun.
  destruct (convert_to_bids_run ext _ _ _ _ _ _ _ _ _ Hrun)
    as [(e & Hc & _)|(h & tr & s1 & n & Hc & _ & Htr & _)].
  - by apply classify_no_set_level in Hc.
  - apply classify_no_set_level in Hc as (evs & Hevs & Hall).
    exists (evs ++ curate_logs h dry_run ++ (planned_call client dry_run h <$> take n tr)).
    split; [by rewrite Htr, Hevs, <- !app_assoc|].
    apply Forall_app. split; [done|]. apply Forall_app. split.
    + unfold curate_logs. destruct dry_run, (IntendedFor h); by repeat constructor.
    + apply Forall_fmap, Forall_forall. by intros it _.
Qed.

(** X16: [main] builds the client before it looks at the command line:
    when [flywheel.Client()] raises, [main] ends with that exception and
    the arguments are never parsed. *)
Theorem main_client_failure s e w :
  flywheel_Client ext (world s) = (Raises e, w) →
  main ext s = (Raises e, {| world := w; trace := trace s ++ [EvNewClient] |}).
Proof.
  intros Hclient. unfold main, mbind, M_bind, bind, call. by rewrite Hclient.
Qed.

(** X17: when the parsing of the arguments raises (a missing [--project],
    say), [main] ends with that exception after the client has been built,
    and no project is looked up. *)
Theorem main_arguments_failure s fw w1 e w2 :
  flywheel_Client ext (world s) = (Returns fw, w1) →
  parse_args ext get_parser w1 = (Raises e, w2) →
  main ext s
  = (Raises e,
     {| world := w2; trace := trace s ++ [EvNewClient; EvParseArgs get_parser] |}).
Proof.
  intros Hclient Hargs. unfold main, mbind, M_bind, bind, call.
  rewrite Hclient. simpl. rewrite Hargs. by rewrite <- app_assoc.
Qed.

(** X18: the level of the logger is set, to DEBUG and once, exactly when
    [--verbose] was given, and it is set before the project is looked up;
    nothing else in the run changes the level. *)
Theorem verbose_sets_debug_level s fw w1 args w2 :
  flywheel_Client ext (world s) = (Returns fw, w1) →
  parse_args ext get_parser w1 = (Returns args, w2) →
  filter (λ ev, is_set_level ev = true) (new_events s (main ext s).2)
  = (if args_verbose args then [EvSetLevel DEBUG] else [])
  ∧ ∃ rest,
      new_events s (main ext s).2
      = [EvNewClient; EvParseArgs get_parser]
        ++ (if args_verbose args then [EvSetLevel DEBUG] else [])
        ++ rest
      ∧ Forall (λ ev, is_set_level ev = false) rest.
Proof.
  intros Hclient Hargs.
  assert (main ext s
          = convert_to_bids ext fw (join " " (args_project args)) (args_heuristic args)
              (args_subject args) (args_session args) (args_dry_run args)
              {| world := w2;
                 trace := trace s ++ [EvNewClient; EvParseArgs get_parser]
                   ++ (if args_verbose args then [EvSetLevel DEBUG] else []) |})
    as Hmain.
  { unfold main, mbind, M_bind, bind, call, set_level, ret. rewrite Hclient. simpl.
    rewrite Hargs. destruct (args_verbose args); simpl; by rewrite <- !app_assoc. }
  destruct (main ext s) as [r s'] eqn:Hrun. symmetry in Hmain.
  apply convert_to_bids_no_set_level in Hmain as (rest & Htr & Hall). simpl in Htr.
  assert (new_events s s'
          = [EvNewClient; EvParseArgs get_parser]
            ++ (if args_verbose args then [EvSetLevel DEBUG] else []) ++ rest) as Hev.
  { apply new_events_app. by rewrite Htr, <- !app_assoc. }
  simpl. split; [|by exists rest].
  rewrite Hev, !filter_app.
  assert (filter (λ ev, is_set_level ev = true) rest = []) as ->.
  { clear -Hall. induction Hall as [|ev rest Hev _ IH]; [done|].
    rewrite filter_cons_False; [done|]. by rewrite Hev. }
  by destruct (args_verbose args).
Qed.

Lemma string_length_app (a b : string) :
  String.length (a +:+ b) = String.length a + String.length b.
Proof.
  induction a as [|c a IH]; [done|].
  change (S (String.length (a +:+ b)) = S (String.length a + String.length b)).
  by rewrite IH.
Qed.

(** X19: the joined label is as long as its parts together plus one
    separator between each two neighbours: the join neither trims nor pads
    the parts. *)
Theorem join_length (sep : string) (parts : list string) :
  String.length (join sep parts)
  = sum_list (String.length <$> parts) + String.length sep * (length parts - 1).
Proof.
  induction parts as [|p [|q rest] IH];
    [simpl; lia | simpl; unfold id; lia |].
  change (join sep (p :: q :: rest)) with (p +:+ sep +:+ join sep (q :: rest)).
  rewrite !string_length_app, IH. simpl. unfold id. rewrite Nat.sub_0_r.
  rewrite (Nat.mul_succ_r (String.length sep)). lia.
Qed.

Lemma string_app_inv_last (a b : string) (c : ascii) :
  a +:+ String c "" = b +:+ String c "" → a = b.
Proof.
  revert b. induction a as [|x a IH]; intros [|y b] Heq; [done|..].
  - change (String c "" = String y (b +:+ String c "")) in Heq.
    injection Heq as _ Hb. by destruct b.
  - change (String x (a +:+ String c "") = String c "") in Heq.
    injection Heq as _ Ha. by destruct a.
  - change (String x (a +:+ String c "") = String y (b +:+ String c "")) in Heq.
    injection Heq as -> Hab. f_equal. by apply IH.
Qed.

(** X20: the query string identifies the label: two labels with the same
    project query are the same label, character for character (the label is
    copied between the quotes as it is). *)
Theorem label_query_injective (label1 label2 : string) :
  label_query label1 = label_query label2 → label1 = label2.
Proof.
  unfold label_query. intros Heq.
  apply (inj (String.append "label=")) in Heq.
  apply (inj (String.append dquote)) in Heq.
  by apply string_app_inv_last in Heq.
Qed.

End MoreCommandLine.

Lemma main_client_failure_witness :
  let s := Demo.fresh [] in
  main (Faulty.services Faulty.AtClient false) s
  = (Raises Faulty.outage, {| world := world s; trace := trace s ++ [EvNewClient] |}).
Proof.
  intros s.
  exact (main_client_failure (Faulty.services Faulty.AtClient false) s
           Faulty.outage (world s) eq_refl).
Defined.

Lemma main_arguments_failure_witness :
  let s := Demo.fresh [] in
  main (Faulty.services Faulty.AtArguments false) s
  = (Raises (Exc "SystemExit" "2"),
     {| world := world s; trace := trace s ++ [EvNewClient; EvParseArgs get_parser] |}).
Proof.
  intros s.
  exact (main_arguments_failure (Faulty.services Faulty.AtArguments false) s
           Demo.fw (world s) (Exc "SystemExit" "2") (world s) eq_refl eq_refl).
Defined.

Lemma verbose_sets_debug_level_witness :
  let s := Demo.fresh [] in
  filter (λ ev, is_set_level ev = true)
    (new_events s (main (Faulty.services Faulty.Nowhere true) s).2)
  = [EvSetLevel DEBUG].
Proof.
  intros s.
  exact (proj1 (verbose_sets_debug_level (Faulty.services Faulty.Nowhere true) s
                  Demo.fw (world s)
                  {| args_project := ["StudyA"]; args_heuristic := "plain.py";
                     args_subject := None; args_session := None;
                     args_verbose := true; args_dry_run := false |}
                  (world s) eq_refl eq_refl)).
Defined.

Lemma label_query_injective_witness :
  "Study A" = "Study A".
Proof.
  exact (label_query_injective "Study A" "Study A" eq_refl).
Defined.
